(** * CC Recommendations Engine

    A shallow embedding of the client-side recommendation module of the
    cutecards theme (the script that starts with "CC Recommendations
    Engine"): tag parsing, Jaccard scoring, the diversity pass, the
    bestseller fallback and the session-cached product catalog.

    Modelling conventions.
    - JavaScript numbers that hold scores are exact rationals [Q]: every
      score is a sum of at most five products of a quotient of two set
      sizes with a weight.  Timestamps are integers [Z] (milliseconds).
    - Strings are Rocq strings (bytes); only ASCII letters are case folded
      and only ASCII white space is trimmed.
    - A [Set] is a [gset string]; the two counter objects of [diversify]
      are [gmap string nat] maps read through the lookup of a JavaScript
      object created with the literal [{}].
    - [try]/[catch] and [await] are explicit: a computation completes with
      [Returns], [Throws] or stays [Pending]; the session storage, the
      catalog instance and the list of issued requests are threaded as a
      [World]. *)

From Stdlib Require Import QArith Ascii String Lqa.
From stdpp Require Import gmap strings list sorting.

Open Scope string_scope.
Open Scope list_scope.

(** ** Configuration *)

Module CONFIG.
Definition CACHE_DURATION : Z := 1800000.
Definition MAX_PRODUCTS : nat := 250.
Definition RAIL_SIZE : nat := 6.

Module TAG_WEIGHTS.
Definition interest : Q := 3.
Definition occasion : Q := 2.
Definition recipient : Q := 2.
Definition style : Q := 1.
Definition humour : Q := 1 # 2.
End TAG_WEIGHTS.

Module DIVERSITY.
Definition max_per_interest : nat := 2.
Definition max_per_style : nat := 2.
End DIVERSITY.
End CONFIG.

(** ** Completions of fallible and asynchronous code *)

Inductive Completion (A : Type) : Type :=
  | Returns (a : A)
  | Throws (message : string)
  | Pending.
Arguments Returns {A} a.
Arguments Throws {A} message.
Arguments Pending {A}.

#[global] Instance completion_ret : MRet Completion := λ A a, Returns a.

#[global] Instance completion_bind : MBind Completion := λ A B k c,
  match c with
  | Returns a => k a
  | Throws e => Throws e
  | Pending => Pending
  end.

(** [try { body } catch (error) { handler }] *)
Definition try_catch {A} (body : Completion A) (handler : string -> Completion A)
  : Completion A :=
  match body with
  | Throws e => handler e
  | other => other
  end.

(** ** Strings *)

Definition lowerChar (c : ascii) : ascii :=
  let n := nat_of_ascii c in
  if (65 <=? n)%nat && (n <=? 90)%nat then ascii_of_nat (n + 32) else c.

Fixpoint toLowerCase (s : string) : string :=
  match s with
  | EmptyString => EmptyString
  | String c rest => String (lowerChar c) (toLowerCase rest)
  end.

Definition isWhite (c : ascii) : bool :=
  let n := nat_of_ascii c in
  ((9 <=? n)%nat && (n <=? 13)%nat) || (n =? 32)%nat.

Fixpoint trimStart (cs : list ascii) : list ascii :=
  match cs with
  | c :: rest => if isWhite c then trimStart rest else cs
  | [] => []
  end.

Definition trim (s : string) : string :=
  string_of_list_ascii
    (rev (trimStart (rev (trimStart (list_ascii_of_string s))))).

(** [s.split(sep)] for a one-character separator: never empty. *)
Fixpoint split (sep : ascii) (s : string) : list string :=
  match s with
  | EmptyString => [EmptyString]
  | String c rest =>
      if Ascii.eqb c sep then EmptyString :: split sep rest
      else match split sep rest with
           | part :: parts => String c part :: parts
           | [] => [String c EmptyString]
           end
  end.

(** ** Parsed tags *)

Record ParsedTags : Type := mkParsedTags {
  interest : list string;
  occasion : list string;
  recipient : list string;
  style : list string;
  humour : list string
}.

Definition emptyParsed : ParsedTags := mkParsedTags [] [] [] [] [].

(** [parsed[category].push(value)] guarded by [parsed.hasOwnProperty]. *)
Definition pushTag (parsed : ParsedTags) (category value : string) : ParsedTags :=
  let '(mkParsedTags i o r s h) := parsed in
  if category =? "interest" then mkParsedTags (i ++ [value]) o r s h
  else if category =? "occasion" then mkParsedTags i (o ++ [value]) r s h
  else if category =? "recipient" then mkParsedTags i o (r ++ [value]) s h
  else if category =? "style" then mkParsedTags i o r (s ++ [value]) h
  else if category =? "humour" then mkParsedTags i o r s (h ++ [value])
  else parsed.

Definition parseTag (parsed : ParsedTags) (tag : string) : ParsedTags :=
  let tagLower := trim (toLowerCase tag) in
  match split ":" tagLower with
  | [category; value] => pushTag parsed category value
  | _ => parsed
  end.

(** [tags] is [None] when the field is missing or not an array. *)
Definition parseTags (tags : option (list string)) : ParsedTags :=
  match tags with
  | None => emptyParsed
  | Some tags => foldl parseTag emptyParsed tags
  end.

(** ** Jaccard similarity *)

Definition jaccardSimilarity (arr1 arr2 : list string) : Q :=
  if (length arr1 =? 0)%nat || (length arr2 =? 0)%nat then 0%Q
  else
    let set1 : gset string := list_to_set arr1 in
    let set2 : gset string := list_to_set arr2 in
    let intersection : gset string := filter (λ x, x ∈ set2) set1 in
    let union : gset string := set1 ∪ set2 in
    (inject_Z (Z.of_nat (size intersection)) / inject_Z (Z.of_nat (size union)))%Q.

(** ** Products *)

(** One entry of the [products] array of [/products.json]; only the fields
    the engine reads. *)
Record RawProduct : Type := mkRawProduct {
  raw_handle : string;
  raw_title : string;
  raw_tags : option (list string);
  raw_available : bool
}.

(** A catalog item; [price], [image], [productType] and [vendor] are
    carried by the script but read nowhere in the engine. *)
Record Product : Type := mkProduct {
  handle : string;
  title : string;
  tags : option (list string);
  parsedTags : ParsedTags;
  available : bool;
  url : string
}.

Definition toProduct (p : RawProduct) : Product :=
  {| handle := raw_handle p;
     title := raw_title p;
     tags := raw_tags p;
     parsedTags := parseTags (raw_tags p);
     available := raw_available p;
     url := ("/products/" ++ raw_handle p)%string |}.

(** ** The world around the engine *)

(** What a [fetch] of [/products.json] settles to: the promise rejects, or
    a response arrives with its [ok] flag and a body whose [products]
    array is [None] when the JSON cannot be read. *)
Inductive FetchOutcome : Type :=
  | Rejected
  | Responded (ok : bool) (body : option (list RawProduct)).

(** The [cc_product_catalog] item of [sessionStorage]. *)
Inductive SessionEntry : Type :=
  | NoEntry
  | Unparsable
  | Snapshot (timestamp : Z) (products : list Product).

Inductive Request : Type :=
  | CatalogRequest (limit : nat)
  | BestsellerRequest (limit : nat).

Record ProductCatalog : Type := mkCatalog {
  products : list Product;
  loading : bool;
  loaded : bool
}.

Record World : Type := mkWorld {
  catalog : ProductCatalog;
  session : SessionEntry;
  sessionWritable : bool;
  requests : list Request
}.

(** [new ProductCatalog()] *)
Definition newCatalog : ProductCatalog := mkCatalog [] false false.

Definition setCatalog (c : ProductCatalog) (w : World) : World :=
  mkWorld c (session w) (sessionWritable w) (requests w).

Definition setSession (e : SessionEntry) (w : World) : World :=
  mkWorld (catalog w) e (sessionWritable w) (requests w).

Definition issue (r : Request) (w : World) : World :=
  mkWorld (catalog w) (session w) (sessionWritable w) (requests w ++ [r]).

(** ** ProductCatalog *)

(** [loadFromCache()] at clock reading [now]. *)
Definition loadFromCache (now : Z) (w : World) : option (list Product) * World :=
  match session w with
  | NoEntry => (None, w)
  | Unparsable => (None, w)
  | Snapshot timestamp cached =>
      let age := (now - timestamp)%Z in
      if (CONFIG.CACHE_DURATION <? age)%Z then (None, setSession NoEntry w)
      else (Some cached, w)
  end.

(** [saveToCache(products)] at clock reading [now]; a failing [setItem]
    is caught and leaves the storage as it was. *)
Definition saveToCache (now : Z) (ps : list Product) (w : World) : World :=
  if sessionWritable w then setSession (Snapshot now ps) w else w.

Definition findByHandle (ps : list Product) (h : string) : option Product :=
  List.find (λ p, handle p =? h) ps.

(** The awaited part of the [try] block of [load]: the response and its
    JSON body. *)
Definition fetchBody (error : string) (o : FetchOutcome) : Completion (list RawProduct) :=
  match o with
  | Rejected => Throws "fetch rejected"
  | Responded false _ => Throws error
  | Responded true None => Throws "no products in body"
  | Responded true (Some raw) => Returns raw
  end.

(** Where a call of [load()] stands when it first gives up control. *)
Inductive LoadStep : Type :=
  | Done (ps : list Product)
  | AwaitFetch
  | AwaitLoaded.

(** [load()] from its entry up to its first suspension. *)
Definition load_enter (now : Z) (w : World) : LoadStep * World :=
  let c := catalog w in
  if loaded c then (Done (products c), w)
  else if loading c then (AwaitLoaded, w)
  else
    let w := setCatalog (mkCatalog (products c) true (loaded c)) w in
    match loadFromCache now w with
    | (Some cached, w) => (Done cached, setCatalog (mkCatalog cached false true) w)
    | (None, w) => (AwaitFetch, issue (CatalogRequest CONFIG.MAX_PRODUCTS) w)
    end.

(** [load()] from the moment its fetch settles with [o] to its end; the
    two awaits (response, body) change no state in between and are one
    step here.  Nothing is written before the last statement that can
    throw, so the handler runs in the world the block was entered in. *)
Definition load_resume (o : FetchOutcome) (now : Z) (w : World)
  : Completion (list Product * World) :=
  try_catch
    (raw ← fetchBody "Failed to fetch products" o;
     let ps := toProduct <$> raw in
     let c := catalog w in
     let w1 := setCatalog (mkCatalog ps (loading c) (loaded c)) w in
     let w2 := saveToCache now ps w1 in
     Returns (ps, setCatalog (mkCatalog ps false true) w2))
    (λ error,
     let c := catalog w in
     Returns ([], setCatalog (mkCatalog (products c) false (loaded c)) w)).

(** The interval callback of a waiting [load()]: resolves once [loaded]. *)
Definition load_poll (w : World) : option (list Product) :=
  if loaded (catalog w) then Some (products (catalog w)) else None.

(** What the network and the clock answer during one call. *)
Record Env : Type := mkEnv {
  clockAtLoad : Z;
  clockAtSave : Z;
  catalogResponse : FetchOutcome;
  bestsellerResponse : nat -> FetchOutcome
}.

(** [await catalog.load()] with nothing else running in between: a call
    that finds another load in flight waits for a flag nobody sets. *)
Definition load (env : Env) (w : World) : Completion (list Product * World) :=
  match load_enter (clockAtLoad env) w with
  | (Done ps, w) => Returns (ps, w)
  | (AwaitFetch, w) => load_resume (catalogResponse env) (clockAtSave env) w
  | (AwaitLoaded, w) => Pending
  end.

(** ** RecommendationEngine: scoring *)

Definition nonEmpty (arr : list string) : bool := negb (length arr =? 0)%nat.

Definition scoreProduct (productTags anchorTags : ParsedTags) (mode : string) : Q :=
  let score := 0%Q in
  if mode =? "interest" then
    if nonEmpty (interest anchorTags) && nonEmpty (interest productTags)
    then (score + jaccardSimilarity (interest productTags) (interest anchorTags)
                  * CONFIG.TAG_WEIGHTS.interest * 3)%Q
    else score
  else if mode =? "occasion" then
    if nonEmpty (occasion anchorTags) && nonEmpty (occasion productTags)
    then (score + jaccardSimilarity (occasion productTags) (occasion anchorTags)
                  * CONFIG.TAG_WEIGHTS.occasion * 3)%Q
    else score
  else
    let score :=
      if nonEmpty (interest anchorTags) && nonEmpty (interest productTags)
      then (score + jaccardSimilarity (interest productTags) (interest anchorTags)
                    * CONFIG.TAG_WEIGHTS.interest)%Q
      else score in
    let score :=
      if nonEmpty (occasion anchorTags) && nonEmpty (occasion productTags)
      then (score + jaccardSimilarity (occasion productTags) (occasion anchorTags)
                    * CONFIG.TAG_WEIGHTS.occasion)%Q
      else score in
    let score :=
      if nonEmpty (recipient anchorTags) && nonEmpty (recipient productTags)
      then (score + jaccardSimilarity (recipient productTags) (recipient anchorTags)
                    * CONFIG.TAG_WEIGHTS.recipient)%Q
      else score in
    let score :=
      if nonEmpty (style anchorTags) && nonEmpty (style productTags)
      then (score + jaccardSimilarity (style productTags) (style anchorTags)
                    * CONFIG.TAG_WEIGHTS.style)%Q
      else score in
    let score :=
      if nonEmpty (humour anchorTags) && nonEmpty (humour productTags)
      then (score + jaccardSimilarity (humour productTags) (humour anchorTags)
                    * CONFIG.TAG_WEIGHTS.humour)%Q
      else score in
    score.

(** The objects [{ product, score }] built by [getRecommendations]. *)
Record Scored : Type := mkScored {
  product : Product;
  score : Q
}.

(** [0 < q], the test of [item.score > 0]. *)
Definition positive (q : Q) : bool := negb (Qle_bool q 0).

(** [.sort((a, b) => b.score - a.score)]: the sort is stable, so an item
    is placed in front of the first later item whose score is not
    larger. *)
Fixpoint insertByScore (a : Scored) (sorted : list Scored) : list Scored :=
  match sorted with
  | [] => [a]
  | b :: rest =>
      if Qle_bool (score b) (score a) then a :: b :: rest
      else b :: insertByScore a rest
  end.

Definition sortByScore (items : list Scored) : list Scored :=
  foldr insertByScore [] items.

(** The value of the local [scored] of [getRecommendations]. *)
Definition scoreCatalog (ps : list Product) (anchorHandle : string)
    (anchorTags : ParsedTags) (mode : string) : list Scored :=
  sortByScore
    (filter (λ item, positive (score item))
       ((λ p, mkScored p (scoreProduct (parsedTags p) anchorTags mode)) <$>
          filter (λ p, available p)
            (filter (λ p, handle p ≠ anchorHandle) ps))).

(** ** RecommendationEngine: diversity *)

(** Property names every object literal inherits from [Object.prototype].
    Read from a counter object they yield a function or an object, which
    compares as [NaN]; adding one to it gives a string, so these keys
    never hold a number. *)
Definition objectPrototypeNames : list string :=
  [ "constructor"; "__proto__"; "hasOwnProperty"; "isPrototypeOf";
    "propertyIsEnumerable"; "toLocaleString"; "toString"; "valueOf";
    "__defineGetter__"; "__defineSetter__"; "__lookupGetter__";
    "__lookupSetter__" ].

Definition inherited (key : string) : bool :=
  bool_decide (key ∈ objectPrototypeNames).

(** [counts[key] >= cap]; a missing key reads [undefined]. *)
Definition reaches (counts : gmap string nat) (key : string) (cap : nat) : bool :=
  if inherited key then false
  else match counts !! key with
       | Some n => (cap <=? n)%nat
       | None => false
       end.

(** [counts[key] = (counts[key] || 0) + 1] *)
Definition increment (counts : gmap string nat) (key : string) : gmap string nat :=
  if inherited key then counts
  else <[key := (default 0%nat (counts !! key) + 1)%nat]> counts.

Record Diversity : Type := mkDiversity {
  interestCounts : gmap string nat;
  styleCounts : gmap string nat;
  result : list Scored
}.

Definition skipInterest (d : Diversity) (item : Scored) : bool :=
  existsb (λ i, reaches (interestCounts d) i CONFIG.DIVERSITY.max_per_interest)
    (interest (parsedTags (product item))).

Definition skipStyle (d : Diversity) (item : Scored) : bool :=
  existsb (λ s, reaches (styleCounts d) s CONFIG.DIVERSITY.max_per_style)
    (style (parsedTags (product item))).

Definition skips (d : Diversity) (item : Scored) : bool :=
  skipInterest d item && skipStyle d item.

(** One turn of the loop over [scoredProducts]. *)
Definition diversifyStep (d : Diversity) (item : Scored) : Diversity :=
  if skips d item then d
  else
    {| result := result d ++ [item];
       interestCounts :=
         foldl increment (interestCounts d) (interest (parsedTags (product item)));
       styleCounts :=
         foldl increment (styleCounts d) (style (parsedTags (product item))) |}.

Definition diversifyFrom (d : Diversity) (scoredProducts : list Scored) : Diversity :=
  foldl diversifyStep d scoredProducts.

Definition diversifyStart : Diversity := mkDiversity ∅ ∅ [].

Definition diversify (scoredProducts : list Scored) : list Scored :=
  result (diversifyFrom diversifyStart scoredProducts).

(** ** RecommendationEngine: fallback and entry point *)

Definition getFallbackRecommendations (env : Env) (limit : nat) (w : World)
  : Completion (list string * World) :=
  let w := issue (BestsellerRequest limit) w in
  try_catch
    (raw ← fetchBody "Failed to fetch bestsellers" (bestsellerResponse env limit);
     Returns (take limit (raw_handle <$> filter (λ p, raw_available p) raw), w))
    (λ error, Returns ([], w)).

(** The handles taken from the diversified list, before any backfill. *)
Definition recommendedOf (diversified : list Scored) : list string :=
  (λ item, handle (product item)) <$> take CONFIG.RAIL_SIZE diversified.

(** [getRecommendations(anchorHandle, mode)]; the analytics call
    [trackEvent] only reports and is left out. *)
Definition getRecommendations (env : Env) (anchorHandle mode : string) (w : World)
  : Completion (list string * World) :=
  '(_, w) ← load env w;
  match findByHandle (products (catalog w)) anchorHandle with
  | None => getFallbackRecommendations env CONFIG.RAIL_SIZE w
  | Some anchorProduct =>
      let anchorTags := parsedTags anchorProduct in
      let scored := scoreCatalog (products (catalog w)) anchorHandle anchorTags mode in
      let diversified := diversify scored in
      let recommended := recommendedOf diversified in
      '(recommended, w) ←
        (if (length recommended <? CONFIG.RAIL_SIZE)%nat then
           let fillCount := (CONFIG.RAIL_SIZE - length recommended)%nat in
           '(bestsellers, w) ← getFallbackRecommendations env fillCount w;
           Returns (recommended ++ filter (λ h, h ∉ recommended) bestsellers, w)
         else Returns (recommended, w));
      Returns (take CONFIG.RAIL_SIZE recommended, w)
  end.

(** ** Several callers on one page *)

(** The promise a caller of [load()] holds. *)
Inductive Promise : Type :=
  | Settled (ps : list Product)
  | OnFetch
  | OnInterval.

Record Page : Type := mkPage {
  world : World;
  promises : list Promise
}.

(** What the event loop can run next: a new call of [load()], the fetch of
    a caller settling, or the 100 ms interval of a waiting caller. *)
Inductive Event : Type :=
  | CallLoad (now : Z)
  | FetchSettles (caller : nat) (o : FetchOutcome) (now : Z)
  | IntervalFires (caller : nat).

Definition pageStep (pg : Page) (e : Event) : Page :=
  match e with
  | CallLoad now =>
      match load_enter now (world pg) with
      | (Done ps, w) => mkPage w (promises pg ++ [Settled ps])
      | (AwaitFetch, w) => mkPage w (promises pg ++ [OnFetch])
      | (AwaitLoaded, w) => mkPage w (promises pg ++ [OnInterval])
      end
  | FetchSettles caller o now =>
      match promises pg !! caller with
      | Some OnFetch =>
          match load_resume o now (world pg) with
          | Returns (ps, w) => mkPage w (<[caller := Settled ps]> (promises pg))
          | _ => pg
          end
      | _ => pg
      end
  | IntervalFires caller =>
      match promises pg !! caller with
      | Some OnInterval =>
          match load_poll (world pg) with
          | Some ps => mkPage (world pg) (<[caller := Settled ps]> (promises pg))
          | None => pg
          end
      | _ => pg
      end
  end.

Definition runPage (pg : Page) (events : list Event) : Page :=
  foldl pageStep pg events.

(** A page whose script has just run: a fresh catalog, no request yet. *)
Definition freshPage (entry : SessionEntry) (writable : bool) : Page :=
  mkPage (mkWorld newCatalog entry writable []) [].

(** ** Vocabulary of the statements *)

(** What one category block of the 'similar' branch of [scoreProduct]
    adds to the score. *)
Definition contribution (weight : Q) (productValues anchorValues : list string) : Q :=
  if nonEmpty anchorValues && nonEmpty productValues
  then (jaccardSimilarity productValues anchorValues * weight)%Q
  else 0%Q.

(** The value a completed call returns. *)
Definition returned {A} (c : Completion (A * World)) : option A :=
  match c with
  | Returns (a, _) => Some a
  | _ => None
  end.

(** How often [key] occurs in the [values] lists of the selected items. *)
Definition uses (values : ParsedTags -> list string) (key : string)
    (selected : list Scored) : nat :=
  length (filter (λ v, v = key) (selected ≫= (λ item, values (parsedTags (product item))))).

(** The selected items that carry interest [i] together with style [s]. *)
Definition carryingBoth (i s : string) (selected : list Scored) : list Scored :=
  filter (λ item, i ∈ interest (parsedTags (product item))
                  ∧ s ∈ style (parsedTags (product item))) selected.

(** The counters that hold numbers count the occurrences of their key
    among the items selected so far. *)
Definition tracks (d : Diversity) : Prop :=
  ∀ key, inherited key = false →
    default 0%nat (interestCounts d !! key) = uses interest key (result d)
    ∧ default 0%nat (styleCounts d !! key) = uses style key (result d).

(** The handles of a result whose catalog item carries interest [v]. *)
Definition interestCarriers (ps : list Product) (v : string) (handles : list string)
  : list string :=
  List.filter
    (λ h, match findByHandle ps h with
          | Some p => bool_decide (v ∈ interest (parsedTags p))
          | None => false
          end)
    handles.

(** The catalog items [getRecommendations] scores: all but the anchor,
    available ones only. *)
Definition eligible (ps : list Product) (anchorHandle : string) : list Product :=
  filter (λ p, available p) (filter (λ p, handle p ≠ anchorHandle) ps).

(** A fetch fails when the promise rejects, the status is not ok or the
    body has no readable [products]. *)
Definition fetchFails (o : FetchOutcome) : bool :=
  match o with
  | Responded true (Some _) => false
  | _ => true
  end.

(** An instance that is not waiting on another call's fetch. *)
Definition idle (c : ProductCatalog) : Prop :=
  loaded c = true ∨ loading c = false.

(** ** A small shop *)

Definition card (h : string) (ts : list string) : RawProduct :=
  mkRawProduct h h (Some ts) true.

Definition frogHello : Product :=
  toProduct (card "frog-hello" ["interest:frogs"; "occasion:birthday"; "style:cute"]).
Definition frogOne : Product :=
  toProduct (card "frog-one" ["interest:frogs"; "style:cute"]).
Definition frogTwo : Product :=
  toProduct (card "frog-two" ["interest:frogs"; "style:cute"]).
Definition frogDog : Product :=
  toProduct (card "frog-dog" ["interest:frogs"; "interest:dogs"; "style:cute"]).
Definition frogPond : Product :=
  toProduct (card "frog-pond" ["interest:frogs"]).
Definition frogRain : Product :=
  toProduct (card "frog-rain" ["interest:frogs"]).
Definition frogKing : Product :=
  toProduct (card "frog-king" ["interest:frogs"]).
Definition plainCard : Product :=
  toProduct (card "plain-card" ["occasion:birthday"]).

Definition scoredAgainst (anchor : Product) (mode : string) (p : Product) : Scored :=
  mkScored p (scoreProduct (parsedTags p) (parsedTags anchor) mode).

(** A page whose catalog instance has loaded [ps]; and a network that
    answers nothing. *)
Definition readyWorld (ps : list Product) : World :=
  mkWorld (mkCatalog ps false true) NoEntry true [].

Definition offline : Env := mkEnv 0 0 Rejected (λ _, Rejected).

(** A page whose bestseller listing answers with three cards, the first of
    which is the frog card, and whose catalog listing cannot be reached. *)
Definition bestsellerShop : Env :=
  mkEnv 0 0 Rejected
    (λ _, Responded true
            (Some [card "frog-hello" ["interest:frogs"]; card "frog-one" [];
                   card "plain-card" []])).

(** A session entry saved at time 1000, a page that finds it on arrival, a
    page whose instance already holds it, and a network that answers the
    catalog request with one card. *)
Definition frogSnapshot : SessionEntry := Snapshot 1000 [frogOne].

Definition arriving (entry : SessionEntry) : World :=
  mkWorld newCatalog entry true [].

Definition holding (ps : list Product) (entry : SessionEntry) : World :=
  mkWorld (mkCatalog ps false true) entry true [].

Definition answering (now : Z) : Env :=
  mkEnv now (now + 50) (Responded true (Some [card "frog-two" []])) (λ _, Rejected).

(** ** Vocabulary of the further properties *)

(** Two value lists have a value in common. *)
Definition shares (xs ys : list string) : Prop :=
  ∃ v, v ∈ xs ∧ v ∈ ys.

(** The largest score a mode can give. *)
Definition scoreCeiling (mode : string) : Q :=
  if mode =? "interest" then 9
  else if mode =? "occasion" then 6
  else 17 # 2.

(** The number of callers whose fetch has not settled yet. *)
Definition isOnFetch (p : Promise) : bool :=
  match p with
  | OnFetch => true
  | _ => false
  end.

Definition inFlight (pg : Page) : nat :=
  length (List.filter isOnFetch (promises pg)).

(** The categories [parseTags] keeps, and the values of all of them. *)
Definition categories : list string :=
  ["interest"; "occasion"; "recipient"; "style"; "humour"].

Definition valuesOf (parsed : ParsedTags) : list string :=
  interest parsed ++ occasion parsed ++ recipient parsed ++ style parsed
  ++ humour parsed.

(** Category by category, the values of [p] followed by those of [q]. *)
Definition mergeParsed (p q : ParsedTags) : ParsedTags :=
  mkParsedTags (interest p ++ interest q) (occasion p ++ occasion q)
    (recipient p ++ recipient q) (style p ++ style q) (humour p ++ humour q).

(** Text written as the tagging guide asks: lower-case letters, digits
    and hyphens only. *)
Definition plainChar (c : ascii) : bool :=
  let n := nat_of_ascii c in
  ((97 <=? n)%nat && (n <=? 122)%nat) || ((48 <=? n)%nat && (n <=? 57)%nat)
  || (n =? 45)%nat.

Definition plain (s : string) : bool :=
  forallb plainChar (list_ascii_of_string s).

(** The products a fetch delivers: those of the body of an ok response,
    none when the fetch fails. *)
Definition answered (o : FetchOutcome) : list RawProduct :=
  match o with
  | Responded true (Some raw) => raw
  | _ => []
  end.

(** * Properties *)

Ltac by_evaluation := vm_compute; first [reflexivity | exact I | by auto].

(** ** The model at work *)

(** The example of the comment above [parseTags]. *)
Example parseTags_documented :
  parseTags (Some ["interest:frogs"; "recipient:dad"])
  = mkParsedTags ["frogs"] [] ["dad"] [] [].
Proof. by_evaluation. Qed.

(** Case is folded and blanks around the tag are trimmed; unknown
    categories, tags with no colon or with two, and missing tag arrays
    give nothing. *)
Example parseTags_normalises :
  parseTags (Some [" Interest:Frogs "; "colour:red"; "birthday"; "style:cute:bold";
                   "humour:2"])
  = mkParsedTags ["frogs"] [] [] [] ["2"]
  ∧ parseTags None = emptyParsed.
Proof. by_evaluation. Qed.

Example jaccardSimilarity_half :
  jaccardSimilarity ["frogs"; "dogs"; "frogs"] ["frogs"] = (1 # 2)%Q
  ∧ jaccardSimilarity [] ["frogs"] = 0%Q.
Proof. by_evaluation. Qed.

(** Scores of the shop's cards against the frog card, and the rail order:
    equal scores keep catalog order. *)
Example scoreCatalog_orders_by_score :
  (λ item, (handle (product item), score item)) <$>
    scoreCatalog [frogHello; plainCard; frogDog; frogOne; frogTwo]
      "frog-hello" (parsedTags frogHello) "similar"
  = [("frog-one", 4%Q); ("frog-two", 4%Q); ("frog-dog", (5 # 2)%Q);
     ("plain-card", 2%Q)].
Proof. by_evaluation. Qed.

(** A counter reaches the cap at the second use; a key that names a
    property of [Object.prototype] never does. *)
Example counters_of_object_literal :
  reaches (foldl increment ∅ ["frogs"]) "frogs" 2 = false
  ∧ reaches (foldl increment ∅ ["frogs"; "frogs"]) "frogs" 2 = true
  ∧ reaches (foldl increment ∅ ["constructor"; "constructor"]) "constructor" 2
    = false.
Proof. by_evaluation. Qed.

(** ** Scoring *)

Section Scoring.
Implicit Types (a b : list string) (r : Q).

Lemma Qplus_zero_l r : (0 + r)%Q = r.
Proof.
  destruct r as [n d]. unfold Qplus; cbn [Qnum Qden].
  f_equal. rewrite Z.mul_1_r. reflexivity.
Qed.

Lemma Qplus_zero_r r : (r + 0)%Q = r.
Proof.
  destruct r as [n d]. unfold Qplus; cbn [Qnum Qden].
  rewrite Z.mul_0_l, Z.add_0_r, Z.mul_1_r, Pos.mul_1_r. reflexivity.
Qed.

Lemma Qtimes_three r : (r * 3)%Q = (3 * r)%Q.
Proof.
  destruct r as [n d]. unfold Qmult; cbn [Qnum Qden].
  rewrite Z.mul_comm, Pos.mul_1_r. reflexivity.
Qed.

(** The set of common values does not depend on which side is filtered. *)
Lemma intersection_sym (s1 s2 : gset string) :
  filter (λ v, v ∈ s2) s1 = filter (λ v, v ∈ s1) s2.
Proof.
  apply set_eq. intros v. rewrite !elem_of_filter. tauto.
Qed.

Lemma jaccardSimilarity_sym a b :
  jaccardSimilarity a b = jaccardSimilarity b a.
Proof.
  unfold jaccardSimilarity. rewrite orb_comm.
  destruct ((length b =? 0)%nat || (length a =? 0)%nat); [reflexivity|].
  cbv zeta. rewrite intersection_sym.
  rewrite (comm_L (∪) (list_to_set a)). reflexivity.
Qed.

Lemma jaccardSimilarity_empty_l b : jaccardSimilarity [] b = 0%Q.
Proof. reflexivity. Qed.

Lemma jaccardSimilarity_empty_r a : jaccardSimilarity a [] = 0%Q.
Proof. rewrite jaccardSimilarity_sym. reflexivity. Qed.

(** Common values are among all values, and there is at least one value
    when a list is not empty: the quotient is a number between 0 and 1. *)
Lemma quotient_range (s1 s2 : gset string) (v : string) :
  v ∈ s1 →
  let r := (inject_Z (Z.of_nat (size (filter (λ x, x ∈ s2) s1)))
            / inject_Z (Z.of_nat (size (s1 ∪ s2))))%Q in
  (0 <= r)%Q ∧ (r <= 1)%Q.
Proof.
  intros Hv r. subst r.
  assert (Hsub : filter (λ x, x ∈ s2) s1 ⊆ s1 ∪ s2).
  { intros x. rewrite elem_of_filter, elem_of_union. tauto. }
  apply subseteq_size in Hsub.
  assert (Hpos : (0 < size (s1 ∪ s2))%nat).
  { destruct (decide (size (s1 ∪ s2) = 0%nat)) as [Hz|]; [|lia].
    apply size_empty_inv in Hz. set_solver. }
  remember (size (filter (λ x, x ∈ s2) s1)) as i.
  remember (size (s1 ∪ s2)) as n.
  destruct n as [|n]; [lia|].
  unfold Qdiv, Qinv, Qmult, Qle, inject_Z; cbn [Qnum Qden].
  rewrite Nat2Z.inj_succ. unfold Z.succ.
  destruct (Z.of_nat n + 1)%Z eqn:Hn; try lia.
  cbn [Qnum Qden]. split; lia.
Qed.

Lemma jaccardSimilarity_range a b :
  (0 <= jaccardSimilarity a b)%Q ∧ (jaccardSimilarity a b <= 1)%Q.
Proof.
  unfold jaccardSimilarity.
  destruct a as [|v a]; [cbn; split; discriminate|].
  destruct b as [|u b]; [cbn; split; discriminate|].
  cbn [length Nat.eqb orb]. cbv zeta.
  apply (quotient_range _ _ v). set_solver.
Qed.
End Scoring.

(** C6.  The 'similar' score is the sum of the five category
    contributions; the 'interest' score is exactly three times the interest
    contribution and does not look at any other category, and the
    'occasion' score is exactly three times the occasion contribution and
    does not look at any other category. *)
Theorem pivot_modes_amplify_threefold (productTags anchorTags : ParsedTags) :
  let part weight values :=
    contribution weight (values productTags) (values anchorTags) in
  scoreProduct productTags anchorTags "similar"
  = (part CONFIG.TAG_WEIGHTS.interest interest
     + part CONFIG.TAG_WEIGHTS.occasion occasion
     + part CONFIG.TAG_WEIGHTS.recipient recipient
     + part CONFIG.TAG_WEIGHTS.style style
     + part CONFIG.TAG_WEIGHTS.humour humour)%Q
  ∧ scoreProduct productTags anchorTags "interest"
    = (3 * part CONFIG.TAG_WEIGHTS.interest interest)%Q
  ∧ scoreProduct productTags anchorTags "occasion"
    = (3 * part CONFIG.TAG_WEIGHTS.occasion occasion)%Q
  ∧ (∀ productTags' anchorTags',
       interest productTags' = interest productTags →
       interest anchorTags' = interest anchorTags →
       scoreProduct productTags' anchorTags' "interest"
       = scoreProduct productTags anchorTags "interest")
  ∧ (∀ productTags' anchorTags',
       occasion productTags' = occasion productTags →
       occasion anchorTags' = occasion anchorTags →
       scoreProduct productTags' anchorTags' "occasion"
       = scoreProduct productTags anchorTags "occasion").
Proof.
  cbv zeta. unfold scoreProduct, contribution. cbn [String.eqb Ascii.eqb Bool.eqb].
  repeat split.
  - destruct (nonEmpty (interest anchorTags) && nonEmpty (interest productTags));
      destruct (nonEmpty (occasion anchorTags) && nonEmpty (occasion productTags));
      destruct (nonEmpty (recipient anchorTags) && nonEmpty (recipient productTags));
      destruct (nonEmpty (style anchorTags) && nonEmpty (style productTags));
      destruct (nonEmpty (humour anchorTags) && nonEmpty (humour productTags));
      rewrite ?Qplus_zero_l, ?Qplus_zero_r; reflexivity.
  - destruct (nonEmpty (interest anchorTags) && nonEmpty (interest productTags));
      [|reflexivity].
    rewrite Qplus_zero_l. apply Qtimes_three.
  - destruct (nonEmpty (occasion anchorTags) && nonEmpty (occasion productTags));
      [|reflexivity].
    rewrite Qplus_zero_l. apply Qtimes_three.
  - intros p' a' -> ->. reflexivity.
  - intros p' a' -> ->. reflexivity.
Qed.

(** C10.  Swapping the two tag maps does not change the score, whatever
    the mode. *)
Theorem scoreProduct_symmetric (a b : ParsedTags) (mode : string) :
  scoreProduct a b mode = scoreProduct b a mode.
Proof.
  assert (Hblock : ∀ (u v : list string) (weight acc : Q),
    (if nonEmpty v && nonEmpty u
     then (acc + jaccardSimilarity u v * weight)%Q else acc)
    = (if nonEmpty u && nonEmpty v
       then (acc + jaccardSimilarity v u * weight)%Q else acc)).
  { intros u v weight acc.
    rewrite (jaccardSimilarity_sym u v), (andb_comm (nonEmpty v)). reflexivity. }
  assert (Hpivot : ∀ (u v : list string) (weight acc : Q),
    (if nonEmpty v && nonEmpty u
     then (acc + jaccardSimilarity u v * weight * 3)%Q else acc)
    = (if nonEmpty u && nonEmpty v
       then (acc + jaccardSimilarity v u * weight * 3)%Q else acc)).
  { intros u v weight acc.
    rewrite (jaccardSimilarity_sym u v), (andb_comm (nonEmpty v)). reflexivity. }
  unfold scoreProduct.
  destruct (mode =? "interest"); [apply Hpivot|].
  destruct (mode =? "occasion"); [apply Hpivot|].
  cbv zeta.
  rewrite (Hblock (interest a) (interest b)).
  rewrite (Hblock (occasion a) (occasion b)).
  rewrite (Hblock (recipient a) (recipient b)).
  rewrite (Hblock (style a) (style b)).
  rewrite (Hblock (humour a) (humour b)).
  reflexivity.
Qed.

(** ** The diversity pass *)

Section Diversity.
Implicit Types (d : Diversity) (item : Scored) (key : string)
  (counts : gmap string nat) (values : ParsedTags -> list string).

Lemma diversifyFrom_snoc d l item :
  diversifyFrom d (l ++ [item]) = diversifyStep (diversifyFrom d l) item.
Proof. unfold diversifyFrom. rewrite foldl_app. reflexivity. Qed.

Lemma diversifyFrom_cons d l item :
  diversifyFrom d (item :: l) = diversifyFrom (diversifyStep d item) l.
Proof. reflexivity. Qed.

Lemma diversifyStep_skip d item :
  skips d item = true → diversifyStep d item = d.
Proof. unfold diversifyStep. intros ->. reflexivity. Qed.

Lemma diversifyStep_keep d item :
  skips d item = false →
  diversifyStep d item
  = {| result := result d ++ [item];
       interestCounts :=
         foldl increment (interestCounts d) (interest (parsedTags (product item)));
       styleCounts :=
         foldl increment (styleCounts d) (style (parsedTags (product item))) |}.
Proof. unfold diversifyStep. intros ->. reflexivity. Qed.

(** The pass only ever appends, and what it appends is picked from its
    input in order. *)
Lemma diversifyFrom_appends l : ∀ d,
  ∃ kept, result (diversifyFrom d l) = result d ++ kept ∧ kept `sublist_of` l.
Proof.
  induction l as [|item l IH]; intros d.
  - exists []. split; [symmetry; apply app_nil_r | constructor].
  - rewrite diversifyFrom_cons.
    destruct (IH (diversifyStep d item)) as (kept & Hres & Hsub).
    rewrite Hres. clear Hres.
    destruct (skips d item) eqn:Hskip.
    + rewrite diversifyStep_skip by assumption.
      exists kept. split; [reflexivity | by apply sublist_cons].
    + rewrite (diversifyStep_keep _ _ Hskip). cbn [result].
      exists (item :: kept). split; [|by apply sublist_skip].
      rewrite <- app_assoc. reflexivity.
Qed.

(** Reading a counter. *)
Lemma reaches_spec counts key cap :
  (0 < cap)%nat →
  reaches counts key cap = true
  ↔ inherited key = false ∧ (cap ≤ default 0%nat (counts !! key))%nat.
Proof.
  intros Hcap. unfold reaches.
  destruct (inherited key); [split; [discriminate | intros [? _]; discriminate]|].
  destruct (counts !! key) as [n|]; cbn [default].
  - rewrite Nat.leb_le. tauto.
  - split; [discriminate | intros [_ ?]; lia].
Qed.

Lemma increment_lookup counts key' key :
  inherited key = false →
  default 0%nat (increment counts key' !! key)
  = (default 0%nat (counts !! key) + (if decide (key' = key) then 1 else 0))%nat.
Proof.
  intros Hkey. unfold increment.
  destruct (inherited key') eqn:Hkey'.
  - destruct (decide (key' = key)) as [->|]; [congruence | lia].
  - destruct (decide (key' = key)) as [->|Hne].
    + rewrite lookup_insert_eq. reflexivity.
    + rewrite lookup_insert_ne by assumption. lia.
Qed.

(** Counting a whole list of values adds, to each counter that holds a
    number, the occurrences of its key. *)
Lemma increments_lookup (l : list string) : ∀ counts key,
  inherited key = false →
  default 0%nat (foldl increment counts l !! key)
  = (default 0%nat (counts !! key) + length (filter (λ v, v = key) l))%nat.
Proof.
  induction l as [|v l IH]; intros counts key Hkey; cbn [foldl].
  - rewrite filter_nil. cbn. lia.
  - rewrite IH, increment_lookup by assumption.
    destruct (decide (v = key)) as [->|Hne].
    + rewrite filter_cons_True by reflexivity. cbn [length]. lia.
    + rewrite filter_cons_False by assumption. lia.
Qed.

Lemma uses_snoc values key selected item :
  uses values key (selected ++ [item])
  = (uses values key selected
     + length (filter (λ v, v = key) (values (parsedTags (product item)))))%nat.
Proof.
  unfold uses. rewrite bind_app, bind_singleton, filter_app, length_app.
  reflexivity.
Qed.

Lemma tracks_start : tracks diversifyStart.
Proof. intros key _. split; reflexivity. Qed.

Lemma tracks_step d item : tracks d → tracks (diversifyStep d item).
Proof.
  intros Hd key Hkey. destruct (Hd key Hkey) as [Hi Hs].
  destruct (skips d item) eqn:Hskip.
  - rewrite diversifyStep_skip by assumption. split; assumption.
  - rewrite (diversifyStep_keep _ _ Hskip).
    cbn [interestCounts styleCounts result].
    rewrite !increments_lookup, !uses_snoc by assumption. lia.
Qed.

Lemma tracks_from l : ∀ d, tracks d → tracks (diversifyFrom d l).
Proof.
  induction l as [|item l IH]; intros d Hd; [assumption|].
  rewrite diversifyFrom_cons. apply IH, tracks_step, Hd.
Qed.

(** An item that carries a key accounts for at least one use of it. *)
Lemma carrying_le_uses values key (P : Scored -> Prop)
    `{!∀ item, Decision (P item)} (selected : list Scored) :
  (∀ item, P item → key ∈ values (parsedTags (product item))) →
  (length (filter P selected) ≤ uses values key selected)%nat.
Proof.
  intros HP. unfold uses.
  induction selected as [|item selected IH]; [cbn; lia|].
  rewrite bind_cons, filter_app, length_app.
  destruct (decide (P item)) as [Hitem|Hitem].
  - rewrite filter_cons_True by assumption. cbn [length].
    assert (0 < length (filter (λ v, v = key)
                          (values (parsedTags (product item)))))%nat; [|lia].
    specialize (HP item Hitem).
    destruct (filter (λ v, v = key) (values (parsedTags (product item))))
      as [|? ?] eqn:Hf; [|cbn; lia].
    exfalso. eapply (filter_nil_not_elem_of _ _ key Hf); [reflexivity | exact HP].
  - rewrite filter_cons_False by assumption. lia.
Qed.

Lemma skipInterest_spec d item :
  skipInterest d item = true
  ↔ ∃ i, i ∈ interest (parsedTags (product item))
         ∧ reaches (interestCounts d) i CONFIG.DIVERSITY.max_per_interest = true.
Proof.
  unfold skipInterest. rewrite existsb_exists.
  split; intros (i & Hin & Hi); exists i; split;
    try assumption; by apply list_elem_of_In.
Qed.

Lemma skipStyle_spec d item :
  skipStyle d item = true
  ↔ ∃ s, s ∈ style (parsedTags (product item))
         ∧ reaches (styleCounts d) s CONFIG.DIVERSITY.max_per_style = true.
Proof.
  unfold skipStyle. rewrite existsb_exists.
  split; intros (s & Hin & Hs); exists s; split;
    try assumption; by apply list_elem_of_In.
Qed.
Lemma diversify_subsequence_elem l item : item ∈ diversify l → item ∈ l.
Proof.
  unfold diversify.
  destruct (diversifyFrom_appends l diversifyStart) as (kept & -> & Hkept).
  cbn [result diversifyStart app]. apply sublist_subseteq, Hkept.
Qed.
End Diversity.

(** C8.  The output of [diversify] is a subsequence of its input: it is
    obtained by deleting items, so every output item is an input item, the
    order is the input's, and nothing is repeated or added. *)
Theorem diversify_subsequence (scoredProducts : list Scored) :
  diversify scoredProducts `sublist_of` scoredProducts
  ∧ (∀ item, item ∈ diversify scoredProducts → item ∈ scoredProducts)
  ∧ (length (diversify scoredProducts) ≤ length scoredProducts)%nat
  ∧ (NoDup scoredProducts → NoDup (diversify scoredProducts)).
Proof.
  assert (Hsub : diversify scoredProducts `sublist_of` scoredProducts).
  { unfold diversify.
    destruct (diversifyFrom_appends scoredProducts diversifyStart)
      as (kept & -> & Hkept).
    exact Hkept. }
  split; [exact Hsub|]. split; [|split].
  - intros item Hitem. eapply sublist_subseteq; eassumption.
  - apply sublist_length, Hsub.
  - intros Hnodup. eapply sublist_NoDup; eassumption.
Qed.

(** C9.  An item without interest values and without style values is never
    skipped, in whatever state the counters are; more generally an item is
    skipped only if one of its interest values and one of its style values
    stand at the cap, so an item with no interest value (or with no style
    value) is not skipped at all, and wherever it stands in the input it is
    part of the output. *)
Theorem untagged_item_never_skipped (d : Diversity) (item : Scored) :
  let interests := interest (parsedTags (product item)) in
  let styles := style (parsedTags (product item)) in
  (interests = [] → styles = [] →
     skips d item = false ∧ result (diversifyStep d item) = result d ++ [item])
  ∧ (skips d item = true →
       (∃ i, i ∈ interests
             ∧ reaches (interestCounts d) i CONFIG.DIVERSITY.max_per_interest = true)
       ∧ (∃ s, s ∈ styles
               ∧ reaches (styleCounts d) s CONFIG.DIVERSITY.max_per_style = true))
  ∧ (interests = [] ∨ styles = [] → skips d item = false)
  ∧ (interests = [] ∨ styles = [] →
       ∀ before after, item ∈ result (diversifyFrom d (before ++ item :: after))).
Proof.
  cbv zeta.
  assert (Hany : ∀ d', interest (parsedTags (product item)) = []
                 ∨ style (parsedTags (product item)) = [] → skips d' item = false).
  { intros d' [H|H]; unfold skips, skipInterest, skipStyle; rewrite H;
      cbn [existsb]; [reflexivity | apply andb_false_r]. }
  split; [|split; [|split]].
  - intros Hi Hs. assert (Hskip := Hany d (or_introl Hi)).
    split; [exact Hskip|]. rewrite (diversifyStep_keep _ _ Hskip). reflexivity.
  - unfold skips. intros [Hi Hs]%andb_true_iff.
    split; [by apply skipInterest_spec | by apply skipStyle_spec].
  - apply Hany.
  - intros Hempty before after.
    unfold diversifyFrom. rewrite foldl_app. cbn [foldl].
    fold (diversifyFrom d before).
    fold (diversifyFrom (diversifyStep (diversifyFrom d before) item) after).
    destruct (diversifyFrom_appends after
                (diversifyStep (diversifyFrom d before) item)) as (kept & -> & _).
    rewrite (diversifyStep_keep _ _ (Hany _ Hempty)). cbn [result].
    rewrite !elem_of_app, list_elem_of_singleton. tauto.
Qed.

(** C1 (as amended).  While [diversify] walks its input, the next item is
    skipped exactly when one of its interest values already occurs twice or
    more among the items kept so far and one of its style values does too
    (only keys whose counter holds a number can be at the cap).  A skipped
    item leaves the output as it is; a kept item is appended, and the
    counter of each of its interest and style values grows by the number
    of times the item lists that value. *)
Theorem diversify_skip_rule (before : list Scored) (item : Scored) :
  let d := diversifyFrom diversifyStart before in
  let d' := diversifyFrom diversifyStart (before ++ [item]) in
  let interests := interest (parsedTags (product item)) in
  let styles := style (parsedTags (product item)) in
  let capped values key :=
    inherited key = false ∧ (2 ≤ uses values key (diversify before))%nat in
  (skips d item = true
   ↔ (∃ i, i ∈ interests ∧ capped interest i)
     ∧ (∃ s, s ∈ styles ∧ capped style s))
  ∧ diversify (before ++ [item])
    = (if skips d item then diversify before else diversify before ++ [item])
  ∧ (skips d item = false →
     ∀ key, inherited key = false →
       default 0%nat (interestCounts d' !! key)
       = (default 0%nat (interestCounts d !! key)
          + length (filter (λ v, v = key) interests))%nat
       ∧ default 0%nat (styleCounts d' !! key)
         = (default 0%nat (styleCounts d !! key)
            + length (filter (λ v, v = key) styles))%nat).
Proof.
  cbv zeta. unfold diversify. rewrite diversifyFrom_snoc.
  set (d := diversifyFrom diversifyStart before).
  assert (Hd : tracks d) by apply tracks_from, tracks_start.
  split; [|split].
  - unfold skips. rewrite andb_true_iff, skipInterest_spec, skipStyle_spec.
    split.
    + intros [(i & Hi & Hcap) (s & Hs & Hcap')].
      apply reaches_spec in Hcap as [Hin Hcap]; [|cbv; lia].
      apply reaches_spec in Hcap' as [Hin' Hcap']; [|cbv; lia].
      destruct (Hd i Hin) as [Ei _]. destruct (Hd s Hin') as [_ Es].
      split; [exists i | exists s]; repeat split; try assumption.
      * rewrite <- Ei. exact Hcap.
      * rewrite <- Es. exact Hcap'.
    + intros [(i & Hi & Hin & Hcap) (s & Hs & Hin' & Hcap')].
      destruct (Hd i Hin) as [Ei _]. destruct (Hd s Hin') as [_ Es].
      split; [exists i | exists s]; (split; [assumption|]);
        apply reaches_spec; try (cbv; lia); split; try assumption.
      * rewrite Ei. exact Hcap.
      * rewrite Es. exact Hcap'.
  - destruct (skips d item) eqn:Hskip.
    + rewrite diversifyStep_skip by assumption. reflexivity.
    + rewrite (diversifyStep_keep _ _ Hskip). reflexivity.
  - intros Hskip key Hkey. rewrite (diversifyStep_keep _ _ Hskip).
    cbn [interestCounts styleCounts].
    rewrite !increments_lookup by assumption. split; reflexivity.
Qed.

(** C1, the claim as written fails.  With two cute frog cards kept, the
    card that shows frogs and dogs is skipped although its interest value
    "dogs" has not been used once. *)
Lemma skipped_despite_fresh_interest :
  let kept := [scoredAgainst frogHello "similar" frogOne;
               scoredAgainst frogHello "similar" frogTwo] in
  let next := scoredAgainst frogHello "similar" frogDog in
  scoreCatalog [frogHello; frogOne; frogTwo; frogDog]
    "frog-hello" (parsedTags frogHello) "similar" = kept ++ [next]
  ∧ interest (parsedTags (product next)) = ["frogs"; "dogs"]
  ∧ uses interest "dogs" (diversify kept) = 0%nat
  ∧ skips (diversifyFrom diversifyStart kept) next = true
  ∧ diversify (kept ++ [next]) = kept.
Proof. by_evaluation. Qed.

Section PairCap.
Implicit Types (d : Diversity) (item : Scored) (i s : string).

Lemma carryingBoth_snoc i s selected item :
  carryingBoth i s (selected ++ [item])
  = carryingBoth i s selected ++ carryingBoth i s [item].
Proof. unfold carryingBoth. apply filter_app. Qed.

Lemma carryingBoth_one i s item :
  (length (carryingBoth i s [item]) ≤ 1)%nat.
Proof. unfold carryingBoth. apply (length_filter _ [item]). Qed.

(** Two kept items with interest [i] and style [s] put both counters at
    the cap, so a third one is skipped. *)
Lemma pair_cap_step d item :
  tracks d →
  (∀ i s, inherited i = false → inherited s = false →
     (length (carryingBoth i s (result d)) ≤ 2)%nat) →
  ∀ i s, inherited i = false → inherited s = false →
    (length (carryingBoth i s (result (diversifyStep d item))) ≤ 2)%nat.
Proof.
  intros Hd Hcap i s Hi Hs. specialize (Hcap i s Hi Hs).
  destruct (skips d item) eqn:Hskip.
  { rewrite diversifyStep_skip by assumption. exact Hcap. }
  rewrite (diversifyStep_keep _ _ Hskip). cbn [result].
  rewrite carryingBoth_snoc, length_app.
  destruct (carryingBoth i s [item]) as [|x rest] eqn:Hitem; [cbn; lia|].
  assert (Hlen := carryingBoth_one i s item). rewrite Hitem in Hlen.
  cbn [length] in *.
  destruct (decide (length (carryingBoth i s (result d)) ≤ 1)%nat); [lia|].
  exfalso.
  assert (Hx : x ∈ carryingBoth i s [item]) by (rewrite Hitem; left).
  unfold carryingBoth in Hx.
  apply list_elem_of_filter in Hx as [[Hxi Hxs] ->%list_elem_of_singleton].
  assert (Hui : (2 ≤ uses interest i (result d))%nat).
  { etransitivity; [|apply (carrying_le_uses interest i
      (λ it, i ∈ interest (parsedTags (product it))
             ∧ s ∈ style (parsedTags (product it))))].
    - unfold carryingBoth in *. lia.
    - tauto. }
  assert (Hus : (2 ≤ uses style s (result d))%nat).
  { etransitivity; [|apply (carrying_le_uses style s
      (λ it, i ∈ interest (parsedTags (product it))
             ∧ s ∈ style (parsedTags (product it))))].
    - unfold carryingBoth in *. lia.
    - tauto. }
  destruct (Hd i Hi) as [Ei _]. destruct (Hd s Hs) as [_ Es].
  assert (skips d item = true); [|congruence].
  unfold skips. apply andb_true_iff. split.
  - apply skipInterest_spec. exists i. split; [assumption|].
    apply reaches_spec; [cbv; lia|]. split; [assumption|]. rewrite Ei. exact Hui.
  - apply skipStyle_spec. exists s. split; [assumption|].
    apply reaches_spec; [cbv; lia|]. split; [assumption|]. rewrite Es. exact Hus.
Qed.

Lemma pair_cap_from l : ∀ d,
  tracks d →
  (∀ i s, inherited i = false → inherited s = false →
     (length (carryingBoth i s (result d)) ≤ 2)%nat) →
  ∀ i s, inherited i = false → inherited s = false →
    (length (carryingBoth i s (result (diversifyFrom d l))) ≤ 2)%nat.
Proof.
  induction l as [|item l IH]; intros d Hd Hcap; [exact Hcap|].
  rewrite diversifyFrom_cons.
  apply IH; [apply tracks_step, Hd | apply pair_cap_step; assumption].
Qed.

Lemma pair_cap_diversify l i s :
  inherited i = false → inherited s = false →
  (length (carryingBoth i s (diversify l)) ≤ 2)%nat.
Proof.
  unfold diversify. apply pair_cap_from; [apply tracks_start|].
  intros ? ? _ _. cbn. lia.
Qed.

Lemma carryingBoth_take i s n selected :
  (length (carryingBoth i s (take n selected))
   ≤ length (carryingBoth i s selected))%nat.
Proof.
  rewrite <- (take_drop n selected) at 2.
  unfold carryingBoth. rewrite filter_app, length_app. lia.
Qed.
End PairCap.

(** ** The catalog and the entry point *)

Section Loading.
Implicit Types (env : Env) (w : World) (o : FetchOutcome).

Lemma fetchBody_fails message o :
  fetchFails o = true → ∃ e, fetchBody message o = Throws e.
Proof. destruct o as [|[] [raw|]]; cbn; intros; try discriminate; eauto. Qed.

Lemma fetchBody_never_pending message o : fetchBody message o ≠ Pending.
Proof. destruct o as [|[] [raw|]]; discriminate. Qed.

Lemma load_resume_failed o now w :
  fetchFails o = true →
  load_resume o now w
  = Returns ([], setCatalog (mkCatalog (products (catalog w)) false
                               (loaded (catalog w))) w).
Proof.
  intros [e He]%(fetchBody_fails "Failed to fetch products").
  unfold load_resume. rewrite He. reflexivity.
Qed.

Lemma load_resume_returns o now w :
  ∃ ps w', load_resume o now w = Returns (ps, w')
           ∧ requests w' = requests w
           ∧ (session w' = session w ∨ session w' = Snapshot now ps).
Proof.
  unfold load_resume.
  destruct o as [|[] [raw|]]; cbn; try (do 2 eexists; split; [reflexivity|];
    split; [reflexivity | left; reflexivity]).
  do 2 eexists. split; [reflexivity|].
  unfold saveToCache. cbn. destruct (sessionWritable w); cbn;
    split; try reflexivity; [right | left]; reflexivity.
Qed.

Lemma getFallbackRecommendations_returns env limit w :
  ∃ hs, getFallbackRecommendations env limit w
        = Returns (hs, issue (BestsellerRequest limit) w)
        ∧ (length hs ≤ limit)%nat
        ∧ (fetchFails (bestsellerResponse env limit) = true → hs = []).
Proof.
  unfold getFallbackRecommendations.
  destruct (bestsellerResponse env limit) as [|[] [raw|]]; cbn;
    try (exists []; repeat split; cbn; lia).
  eexists. split; [reflexivity|]. split; [|discriminate].
  rewrite length_take. lia.
Qed.

Lemma load_returns env w :
  idle (catalog w) → ∃ ps w', load env w = Returns (ps, w').
Proof.
  intros Hidle. unfold load, load_enter.
  destruct (loaded (catalog w)) eqn:Hloaded; [eauto|].
  destruct Hidle as [|Hloading]; [congruence|]. rewrite Hloading.
  destruct (loadFromCache _ _) as [[cached|] w1]; [eauto|].
  destruct (load_resume_returns (catalogResponse env) (clockAtSave env)
              (issue (CatalogRequest CONFIG.MAX_PRODUCTS) w1))
    as (ps & w' & -> & _).
  eauto.
Qed.

Lemma load_never_throws env w e : load env w ≠ Throws e.
Proof.
  unfold load. destruct (load_enter _ _) as [[ps| |] w1]; try discriminate.
  destruct (load_resume_returns (catalogResponse env) (clockAtSave env) w1)
    as (ps & w' & -> & _).
  discriminate.
Qed.

Lemma recommendedOf_length diversified :
  (length (recommendedOf diversified) ≤ CONFIG.RAIL_SIZE)%nat.
Proof. unfold recommendedOf. rewrite length_fmap, length_take. lia. Qed.

(** What [getRecommendations] does once the catalog is there and the
    anchor is in it: the handles of the first items of the diversified
    list, then the bestsellers not yet listed, cut at the rail size. *)
Lemma getRecommendations_found env anchorHandle mode w loadedProducts w1 anchorProduct :
  load env w = Returns (loadedProducts, w1) →
  findByHandle (products (catalog w1)) anchorHandle = Some anchorProduct →
  let recommended :=
    recommendedOf (diversify (scoreCatalog (products (catalog w1)) anchorHandle
                                (parsedTags anchorProduct) mode)) in
  let fillCount := (CONFIG.RAIL_SIZE - length recommended)%nat in
  (length recommended < CONFIG.RAIL_SIZE)%nat ∧
    (∃ bestsellers,
       getFallbackRecommendations env fillCount w1
       = Returns (bestsellers, issue (BestsellerRequest fillCount) w1)
       ∧ getRecommendations env anchorHandle mode w
         = Returns (recommended
                    ++ take fillCount (filter (λ h, h ∉ recommended) bestsellers),
                    issue (BestsellerRequest fillCount) w1))
  ∨ length recommended = CONFIG.RAIL_SIZE
    ∧ getRecommendations env anchorHandle mode w = Returns (recommended, w1).
Proof.
  intros Hload Hfind recommended fillCount.
  unfold getRecommendations. rewrite Hload. cbn [mbind completion_bind].
  rewrite Hfind. cbv zeta. fold recommended. fold fillCount.
  assert (Hlen := recommendedOf_length
    (diversify (scoreCatalog (products (catalog w1)) anchorHandle
                  (parsedTags anchorProduct) mode))).
  fold recommended in Hlen.
  destruct (length recommended <? CONFIG.RAIL_SIZE)%nat eqn:Hshort.
  - apply Nat.ltb_lt in Hshort. left. split; [assumption|].
    destruct (getFallbackRecommendations_returns env fillCount w1)
      as (bestsellers & Hfb & _).
    exists bestsellers. split; [assumption|].
    rewrite Hfb. cbn [mbind completion_bind].
    rewrite take_app, take_ge by lia. reflexivity.
  - apply Nat.ltb_ge in Hshort. right. split; [lia|].
    cbn [mbind completion_bind]. rewrite take_ge by lia. reflexivity.
Qed.

Lemma getRecommendations_not_found env anchorHandle mode w loadedProducts w1 :
  load env w = Returns (loadedProducts, w1) →
  findByHandle (products (catalog w1)) anchorHandle = None →
  getRecommendations env anchorHandle mode w
  = getFallbackRecommendations env CONFIG.RAIL_SIZE w1.
Proof.
  intros Hload Hfind. unfold getRecommendations. rewrite Hload.
  cbn [mbind completion_bind]. rewrite Hfind. reflexivity.
Qed.
(** What the bestseller source returns, whatever the fetch does. *)
Lemma getFallbackRecommendations_value env limit w :
  getFallbackRecommendations env limit w
  = Returns (take limit
               (raw_handle <$>
                  filter (λ p, raw_available p)
                    (answered (bestsellerResponse env limit))),
             issue (BestsellerRequest limit) w).
Proof.
  unfold getFallbackRecommendations, answered.
  destruct (bestsellerResponse env limit) as [|[] [raw|]]; cbn;
    rewrite ?take_nil; reflexivity.
Qed.
End Loading.

(** ** What the rail can contain *)

Section Rail.
Implicit Types (item a b : Scored) (ps : list Product).

Lemma insertByScore_perm a sorted : insertByScore a sorted ≡ₚ a :: sorted.
Proof.
  induction sorted as [|b rest IH]; cbn [insertByScore]; [reflexivity|].
  destruct (Qle_bool (score b) (score a)); [reflexivity|].
  rewrite IH. apply Permutation_swap.
Qed.

Lemma sortByScore_perm items : sortByScore items ≡ₚ items.
Proof.
  induction items as [|a items IH]; [reflexivity|].
  cbn [sortByScore foldr]. rewrite insertByScore_perm.
  apply Permutation_skip, IH.
Qed.

(** Every scored item is an available catalog item other than the anchor,
    with its score against the anchor, and that score is positive. *)
Lemma scoreCatalog_elem ps anchorHandle anchorTags mode item :
  item ∈ scoreCatalog ps anchorHandle anchorTags mode →
  product item ∈ ps
  ∧ handle (product item) ≠ anchorHandle
  ∧ available (product item) = true
  ∧ score item = scoreProduct (parsedTags (product item)) anchorTags mode
  ∧ positive (score item) = true.
Proof.
  unfold scoreCatalog. rewrite sortByScore_perm.
  intros [Hpos Hitem]%list_elem_of_filter.
  apply list_elem_of_fmap in Hitem as (p & -> & Hp).
  apply list_elem_of_filter in Hp as [Hav Hp].
  apply list_elem_of_filter in Hp as [Hne Hp].
  cbn [product score] in *. repeat split; try assumption.
  - by apply Is_true_true.
  - by apply Is_true_true.
Qed.

(** The part of the rail that comes from scoring never shows the anchor. *)
Lemma scored_part_excludes_anchor ps anchorHandle anchorTags mode :
  anchorHandle ∉ recommendedOf (diversify (scoreCatalog ps anchorHandle anchorTags mode)).
Proof.
  unfold recommendedOf. intros (item & Hh & Hitem)%list_elem_of_fmap.
  apply (sublist_subseteq _ _ (sublist_take _ _)) in Hitem.
  apply diversify_subsequence_elem in Hitem.
  apply scoreCatalog_elem in Hitem as (_ & Hne & _). congruence.
Qed.
End Rail.

(** C2, the claim as written fails, in two ways.  Three frog cards
    without a style tag all reach the rail of the frog card: "frogs" is on
    three returned items although three such items were eligible.  And in
    'occasion' mode two frog birthday cards are scored, and the bestseller
    backfill, which no diversity rule filters, adds a third frog card. *)
Lemma three_frog_cards_returned :
  let ps := [frogHello; frogPond; frogRain; frogKing] in
  let birthdayFrog h :=
    toProduct (card h ["interest:frogs"; "occasion:birthday"]) in
  let ps' := [frogHello; birthdayFrog "frog-cake"; birthdayFrog "frog-gift";
              frogOne] in
  let shop :=
    mkEnv 0 0 Rejected
      (λ _, Responded true (Some [card "frog-one" []; card "plain-card" []])) in
  (returned (getRecommendations offline "frog-hello" "similar" (readyWorld ps))
   = Some ["frog-pond"; "frog-rain"; "frog-king"]
   ∧ interestCarriers ps "frogs" ["frog-pond"; "frog-rain"; "frog-king"]
     = ["frog-pond"; "frog-rain"; "frog-king"]
   ∧ length (filter (λ p, "frogs" ∈ interest (parsedTags p))
               (eligible ps "frog-hello")) = 3%nat)
  ∧ (returned (getRecommendations shop "frog-hello" "occasion" (readyWorld ps'))
     = Some ["frog-cake"; "frog-gift"; "frog-one"; "plain-card"]
     ∧ interestCarriers ps' "frogs"
         ["frog-cake"; "frog-gift"; "frog-one"; "plain-card"]
       = ["frog-cake"; "frog-gift"; "frog-one"]
     ∧ length (filter (λ p, "frogs" ∈ interest (parsedTags p))
                 (eligible ps' "frog-hello")) = 3%nat).
Proof. by_evaluation. Qed.

(** C2 (as amended).  When the anchor is in the loaded catalog, the rail
    is the handles of the first six items of the diversified list followed
    by bestseller backfill and nothing else: the handles, not yet on the
    rail, of the first available products of the bestseller answer, as many
    as the rail has room for, and none when that fetch fails.  Among the
    items taken from the diversified list no interest value is carried
    together with one and the same style value by more than two items (for
    values whose counter holds a number). *)
Theorem scored_part_pair_cap (env : Env) (anchorHandle mode : string) (w : World)
    (loadedProducts : list Product) (w1 : World) (anchorProduct : Product)
    (i s : string) :
  load env w = Returns (loadedProducts, w1) →
  findByHandle (products (catalog w1)) anchorHandle = Some anchorProduct →
  inherited i = false →
  inherited s = false →
  let selected :=
    take CONFIG.RAIL_SIZE
      (diversify (scoreCatalog (products (catalog w1)) anchorHandle
                    (parsedTags anchorProduct) mode)) in
  let recommended := (λ item, handle (product item)) <$> selected in
  let fillCount := (CONFIG.RAIL_SIZE - length recommended)%nat in
  let bestsellers :=
    take fillCount
      (raw_handle <$>
         filter (λ p, raw_available p)
           (answered (bestsellerResponse env fillCount))) in
  returned (getRecommendations env anchorHandle mode w)
  = Some (recommended ++ filter (λ h, h ∉ recommended) bestsellers)
  ∧ (length (carryingBoth i s selected) ≤ 2)%nat.
Proof.
  intros Hload Hfind Hi Hs selected recommended fillCount bestsellers. split.
  - pose proof (getRecommendations_found env anchorHandle mode w _ _ _ Hload Hfind)
      as Hfound.
    cbv zeta in Hfound. unfold recommendedOf in Hfound.
    fold selected in Hfound. fold recommended in Hfound.
    fold fillCount in Hfound.
    destruct Hfound as [(Hshort & found & Hfb & ->) | (Hfull & ->)];
      cbn [returned].
    + rewrite getFallbackRecommendations_value in Hfb. injection Hfb as <-.
      fold bestsellers. do 2 f_equal. apply take_ge.
      etransitivity; [apply length_filter|].
      subst bestsellers. rewrite length_take. lia.
    + assert (fillCount = 0%nat) as Hzero by (subst fillCount; lia).
      subst bestsellers. rewrite Hzero, take_0, filter_nil, app_nil_r.
      reflexivity.
  - subst selected. etransitivity; [apply carryingBoth_take|].
    apply pair_cap_diversify; assumption.
Qed.

Lemma scored_part_pair_cap_witness :
  let ps := [frogHello; frogOne; frogTwo; frogDog] in
  let shop :=
    mkEnv 0 0 Rejected
      (λ _, Responded true (Some [card "frog-one" []; card "plain-card" []])) in
  let selected :=
    take CONFIG.RAIL_SIZE
      (diversify (scoreCatalog ps "frog-hello" (parsedTags frogHello) "similar")) in
  returned (getRecommendations shop "frog-hello" "similar" (readyWorld ps))
  = Some (["frog-one"; "frog-two"] ++ ["plain-card"])
  ∧ (length (carryingBoth "frogs" "cute" selected) ≤ 2)%nat.
Proof.
  exact (scored_part_pair_cap
           (mkEnv 0 0 Rejected
              (λ _, Responded true
                      (Some [card "frog-one" []; card "plain-card" []])))
           "frog-hello" "similar"
           (readyWorld [frogHello; frogOne; frogTwo; frogDog])
           [frogHello; frogOne; frogTwo; frogDog]
           (readyWorld [frogHello; frogOne; frogTwo; frogDog])
           frogHello "frogs" "cute"
           eq_refl eq_refl eq_refl eq_refl).
Defined.

(** C3: the anchor can come back through the bestseller listing.  With the
    frog card among the bestsellers, the rail of the frog card ends with
    the frog card when two scored cards leave room for backfill, and it
    starts with the frog card when the catalog could not be loaded and the
    whole rail is the bestseller listing. *)
Theorem anchor_returned_by_bestsellers :
  returned (getRecommendations bestsellerShop "frog-hello" "similar"
              (readyWorld [frogHello; frogOne; plainCard]))
  = Some ["frog-one"; "plain-card"; "frog-hello"]
  ∧ returned (getRecommendations bestsellerShop "frog-hello" "similar"
                (mkWorld newCatalog NoEntry true []))
    = Some ["frog-hello"; "frog-one"; "plain-card"].
Proof. by_evaluation. Qed.

(** ** Expiry of the cached catalog *)

Section Expiry.
Implicit Types (env : Env) (w : World) (c : ProductCatalog).

Lemma loadFromCache_setCatalog now c w :
  loadFromCache now (setCatalog c w)
  = ((loadFromCache now w).1, setCatalog c (loadFromCache now w).2).
Proof.
  unfold loadFromCache. cbn [session setCatalog].
  destruct (session w) as [| |timestamp cached]; try reflexivity.
  destruct (CONFIG.CACHE_DURATION <? now - timestamp)%Z; reflexivity.
Qed.

Lemma loadFromCache_fresh now w timestamp cached :
  session w = Snapshot timestamp cached →
  (now ≤ timestamp + CONFIG.CACHE_DURATION)%Z →
  loadFromCache now w = (Some cached, w).
Proof.
  intros Hs Hage. unfold loadFromCache. rewrite Hs.
  destruct (Z.ltb_spec CONFIG.CACHE_DURATION (now - timestamp)); [lia|].
  reflexivity.
Qed.


(** A miss leaves no snapshot behind. *)
Lemma loadFromCache_miss now w :
  (loadFromCache now w).1 = None →
  session (loadFromCache now w).2 = NoEntry
  ∨ session (loadFromCache now w).2 = Unparsable.
Proof.
  unfold loadFromCache.
  destruct (session w) as [| |timestamp cached] eqn:Hs; cbn; auto.
  destruct (CONFIG.CACHE_DURATION <? now - timestamp)%Z; cbn; auto.
  discriminate.
Qed.
Lemma loadFromCache_requests now w :
  requests (loadFromCache now w).2 = requests w.
Proof.
  unfold loadFromCache.
  destruct (session w) as [| |timestamp cached]; try reflexivity.
  destruct (CONFIG.CACHE_DURATION <? now - timestamp)%Z; reflexivity.
Qed.
End Expiry.




(** ** Failing fetches *)

Section Failures.
Implicit Types (env : Env) (w : World).

Lemma load_failed env w :
  fetchFails (catalogResponse env) = true →
  loaded (catalog w) = false →
  loading (catalog w) = false →
  (loadFromCache (clockAtLoad env) w).1 = None →
  ∃ w', load env w = Returns ([], w')
        ∧ catalog w' = mkCatalog (products (catalog w)) false false
        ∧ (session w' = NoEntry ∨ session w' = Unparsable)
        ∧ requests w' = requests w ++ [CatalogRequest CONFIG.MAX_PRODUCTS].
Proof.
  intros Hfail Hloaded Hloading Hmiss.
  unfold load, load_enter.
  rewrite Hloaded, Hloading, loadFromCache_setCatalog, Hmiss.
  rewrite load_resume_failed by assumption.
  eexists. split; [reflexivity|]. cbn.
  split; [reflexivity|]. split; [apply loadFromCache_miss, Hmiss|].
  rewrite loadFromCache_requests. reflexivity.
Qed.

(** After a failed load the instance is as good as new: the next call
    goes to the network again. *)
Lemma load_enter_after_failure now w :
  loaded (catalog w) = false →
  loading (catalog w) = false →
  session w = NoEntry ∨ session w = Unparsable →
  ∃ w', load_enter now w = (AwaitFetch, w')
        ∧ requests w' = requests w ++ [CatalogRequest CONFIG.MAX_PRODUCTS].
Proof.
  intros Hloaded Hloading Hs. unfold load_enter, loadFromCache.
  rewrite Hloaded, Hloading. cbn [session setCatalog].
  destruct Hs as [-> | ->]; eexists; (split; [reflexivity|]); reflexivity.
Qed.

Lemma getRecommendations_never_throws env anchorHandle mode w e :
  getRecommendations env anchorHandle mode w ≠ Throws e.
Proof.
  destruct (load env w) as [[loadedProducts w1]|e'|] eqn:Hload.
  - destruct (findByHandle (products (catalog w1)) anchorHandle)
      as [anchorProduct|] eqn:Hfind.
    + destruct (getRecommendations_found env anchorHandle mode w _ _ _ Hload Hfind)
        as [(_ & bestsellers & _ & ->) | (_ & ->)]; discriminate.
    + rewrite (getRecommendations_not_found _ _ _ _ _ _ Hload Hfind).
      destruct (getFallbackRecommendations_returns env CONFIG.RAIL_SIZE w1)
        as (hs & -> & _).
      discriminate.
  - exfalso. exact (load_never_throws _ _ _ Hload).
  - unfold getRecommendations. rewrite Hload. discriminate.
Qed.

Lemma getRecommendations_returns env anchorHandle mode w :
  idle (catalog w) →
  ∃ hs w', getRecommendations env anchorHandle mode w = Returns (hs, w')
           ∧ (length hs ≤ CONFIG.RAIL_SIZE)%nat.
Proof.
  intros (loadedProducts & w1 & Hload)%(load_returns env).
  destruct (findByHandle (products (catalog w1)) anchorHandle)
    as [anchorProduct|] eqn:Hfind.
  - destruct (getRecommendations_found env anchorHandle mode w _ _ _ Hload Hfind)
      as [(Hshort & bestsellers & _ & ->) | (Hfull & ->)].
    + do 2 eexists. split; [reflexivity|].
      rewrite length_app, length_take. lia.
    + do 2 eexists. split; [reflexivity|]. lia.
  - rewrite (getRecommendations_not_found _ _ _ _ _ _ Hload Hfind).
    destruct (getFallbackRecommendations_returns env CONFIG.RAIL_SIZE w1)
      as (hs & -> & Hlen & _).
    eauto.
Qed.
End Failures.

(** C7.  A failing catalog fetch makes [load()] return the empty list and
    leaves the instance neither loaded nor loading, so that the next call
    fetches again; a failing bestseller fetch makes the fallback return
    the empty list; [getRecommendations] never completes by throwing,
    returns whenever the instance is not waiting on another call, and
    with a failing bestseller source returns exactly the handles it took
    from the diversified list. *)
Theorem fetch_failures_degrade (env : Env) (anchorHandle mode : string) (w : World) :
  (fetchFails (catalogResponse env) = true →
   loaded (catalog w) = false →
   loading (catalog w) = false →
   (loadFromCache (clockAtLoad env) w).1 = None →
   ∃ w', load env w = Returns ([], w')
         ∧ catalog w' = mkCatalog (products (catalog w)) false false
         ∧ ∀ later, ∃ w'',
             load_enter later w' = (AwaitFetch, w'')
             ∧ requests w'' = requests w' ++ [CatalogRequest CONFIG.MAX_PRODUCTS])
  ∧ (∀ limit,
       fetchFails (bestsellerResponse env limit) = true →
       getFallbackRecommendations env limit w
       = Returns ([], issue (BestsellerRequest limit) w))
  ∧ (∀ e, getRecommendations env anchorHandle mode w ≠ Throws e)
  ∧ (idle (catalog w) →
       ∃ hs w', getRecommendations env anchorHandle mode w = Returns (hs, w'))
  ∧ (∀ loadedProducts w1 anchorProduct,
       load env w = Returns (loadedProducts, w1) →
       findByHandle (products (catalog w1)) anchorHandle = Some anchorProduct →
       (∀ limit, fetchFails (bestsellerResponse env limit) = true) →
       returned (getRecommendations env anchorHandle mode w)
       = Some (recommendedOf
                 (diversify (scoreCatalog (products (catalog w1)) anchorHandle
                               (parsedTags anchorProduct) mode)))).
Proof.
  split; [|split; [|split; [|split]]].
  - intros Hfail Hloaded Hloading Hmiss.
    destruct (load_failed env w Hfail Hloaded Hloading Hmiss)
      as (w' & Hload & Hcat & Hs & _).
    exists w'. split; [exact Hload|]. split; [exact Hcat|].
    intros later. apply load_enter_after_failure; try assumption;
      rewrite Hcat; reflexivity.
  - intros limit Hfail.
    destruct (getFallbackRecommendations_returns env limit w) as (hs & -> & _ & Hnil).
    rewrite (Hnil Hfail). reflexivity.
  - intros e. apply getRecommendations_never_throws.
  - intros Hidle.
    destruct (getRecommendations_returns env anchorHandle mode w Hidle)
      as (hs & w' & -> & _).
    eauto.
  - intros loadedProducts w1 anchorProduct Hload Hfind Hfail.
    destruct (getRecommendations_found env anchorHandle mode w _ _ _ Hload Hfind)
      as [(_ & bestsellers & Hfb & ->) | (_ & ->)]; [|reflexivity].
    destruct (getFallbackRecommendations_returns env
                (CONFIG.RAIL_SIZE
                 - length (recommendedOf
                             (diversify (scoreCatalog (products (catalog w1))
                                           anchorHandle (parsedTags anchorProduct)
                                           mode)))) w1)
      as (hs & Hfb' & _ & Hnil).
    rewrite Hfb' in Hfb. injection Hfb as <-.
    rewrite (Hnil (Hfail _)). cbn [returned].
    rewrite filter_nil, take_nil, app_nil_r. reflexivity.
Qed.

Lemma fetch_failures_degrade_witness :
  (∃ w', load offline (arriving NoEntry) = Returns ([], w')
         ∧ catalog w' = newCatalog
         ∧ ∀ later, ∃ w'',
             load_enter later w' = (AwaitFetch, w'')
             ∧ requests w'' = requests w' ++ [CatalogRequest CONFIG.MAX_PRODUCTS])
  ∧ getFallbackRecommendations offline 4 (arriving NoEntry)
    = Returns ([], issue (BestsellerRequest 4) (arriving NoEntry))
  ∧ (∃ hs w', getRecommendations offline "frog-hello" "similar" (arriving NoEntry)
              = Returns (hs, w'))
  ∧ returned (getRecommendations offline "frog-hello" "similar"
                (holding [frogHello; frogOne; plainCard] NoEntry))
    = Some (recommendedOf
              (diversify (scoreCatalog [frogHello; frogOne; plainCard] "frog-hello"
                            (parsedTags frogHello) "similar"))).
Proof.
  pose proof (fetch_failures_degrade offline "frog-hello" "similar"
                (arriving NoEntry)) as (Hload & Hfb & _ & Hret & _).
  pose proof (fetch_failures_degrade offline "frog-hello" "similar"
                (holding [frogHello; frogOne; plainCard] NoEntry))
    as (_ & _ & _ & _ & Hscored).
  split; [|split; [|split]].
  - exact (Hload eq_refl eq_refl eq_refl eq_refl).
  - exact (Hfb 4%nat eq_refl).
  - apply Hret. right. reflexivity.
  - exact (Hscored [frogHello; frogOne; plainCard]
             (holding [frogHello; frogOne; plainCard] NoEntry) frogHello
             eq_refl eq_refl (λ _, eq_refl)).
Defined.

(** ** Callers that overlap *)

Section Overlap.
Implicit Types (pg : Page) (w : World) (o : FetchOutcome).

(** The first call on a page without a usable session entry goes to the
    network. *)
Lemma first_call_fetches entry writable now :
  (loadFromCache now (arriving entry)).1 = None →
  ∃ entry',
    pageStep (freshPage entry writable) (CallLoad now)
    = mkPage (mkWorld (mkCatalog [] true false) entry' writable
                [CatalogRequest CONFIG.MAX_PRODUCTS]) [OnFetch].
Proof.
  unfold pageStep, freshPage, load_enter, loadFromCache, arriving.
  cbn [world catalog session loaded loading newCatalog setCatalog products
       sessionWritable requests promises].
  destruct entry as [| |timestamp cached]; cbn [fst]; intros Hmiss;
    try (eexists; reflexivity).
  destruct (CONFIG.CACHE_DURATION <? now - timestamp)%Z; [|discriminate].
  eexists. reflexivity.
Qed.

(** A call that finds a load in flight issues nothing and waits. *)
Lemma overlapping_call_waits pg now :
  loaded (catalog (world pg)) = false →
  loading (catalog (world pg)) = true →
  pageStep pg (CallLoad now) = mkPage (world pg) (promises pg ++ [OnInterval]).
Proof.
  intros Hloaded Hloading. unfold pageStep, load_enter.
  rewrite Hloaded, Hloading. reflexivity.
Qed.

Lemma overlapping_calls_wait (times : list Z) : ∀ pg,
  loaded (catalog (world pg)) = false →
  loading (catalog (world pg)) = true →
  runPage pg (CallLoad <$> times)
  = mkPage (world pg) (promises pg ++ replicate (length times) OnInterval).
Proof.
  induction times as [|now times IH]; intros pg Hloaded Hloading.
  - cbn. rewrite app_nil_r. destruct pg; reflexivity.
  - cbn [fmap list_fmap runPage foldl].
    rewrite overlapping_call_waits by assumption.
    fold (runPage (mkPage (world pg) (promises pg ++ [OnInterval]))
            (CallLoad <$> times)).
    rewrite IH by assumption. cbn [world promises length replicate].
    rewrite <- app_assoc. reflexivity.
Qed.

(** As long as the instance is not loaded, interval callbacks change
    nothing, however many of them run. *)
Lemma intervals_keep_waiting (ticks : list nat) pg :
  loaded (catalog (world pg)) = false →
  runPage pg (IntervalFires <$> ticks) = pg.
Proof.
  intros Hloaded. induction ticks as [|caller ticks IH]; [reflexivity|].
  cbn [fmap list_fmap runPage foldl].
  assert (Hstep : pageStep pg (IntervalFires caller) = pg).
  { unfold pageStep, load_poll. rewrite Hloaded.
    destruct (promises pg !! caller) as [[| |]|]; reflexivity. }
  rewrite Hstep. exact IH.
Qed.
Lemma load_resume_succeeded raw now w :
  ∃ w', load_resume (Responded true (Some raw)) now w
        = Returns (toProduct <$> raw, w')
        ∧ catalog w' = mkCatalog (toProduct <$> raw) false true
        ∧ requests w' = requests w.
Proof.
  unfold load_resume, saveToCache. cbn.
  destruct (sessionWritable w); eexists; (split; [reflexivity|]);
    split; reflexivity.
Qed.

Lemma fetch_settles pg caller o now ps w' :
  promises pg !! caller = Some OnFetch →
  load_resume o now (world pg) = Returns (ps, w') →
  pageStep pg (FetchSettles caller o now)
  = mkPage w' (<[caller := Settled ps]> (promises pg)).
Proof. intros Hp Hres. unfold pageStep. rewrite Hp, Hres. reflexivity. Qed.

Lemma interval_settles pg caller :
  promises pg !! caller = Some OnInterval →
  loaded (catalog (world pg)) = true →
  pageStep pg (IntervalFires caller)
  = mkPage (world pg)
      (<[caller := Settled (products (catalog (world pg)))]> (promises pg)).
Proof.
  intros Hp Hloaded. unfold pageStep, load_poll. rewrite Hp, Hloaded.
  reflexivity.
Qed.
(** On a page, an instance that is not loaded holds no products. *)
Lemma unloaded_catalog_is_empty (events : list Event) : ∀ pg,
  (loaded (catalog (world pg)) = false → products (catalog (world pg)) = []) →
  loaded (catalog (world (runPage pg events))) = false →
  products (catalog (world (runPage pg events))) = [].
Proof.
  induction events as [|e events IH]; intros pg Hpg; [exact Hpg|].
  cbn [runPage foldl]. apply IH. clear IH.
  destruct e as [now | caller o now | caller]; cbn [pageStep].
  - unfold load_enter.
    destruct (loaded (catalog (world pg))) eqn:Hloaded;
      [cbn; rewrite Hloaded; discriminate|].
    destruct (loading (catalog (world pg))); [cbn; rewrite Hloaded; exact Hpg|].
    rewrite loadFromCache_setCatalog.
    destruct (loadFromCache now (world pg)) as [[cached|] w1]; cbn;
      [discriminate | intros _; exact (Hpg eq_refl)].
  - destruct (promises pg !! caller) as [[| |]|]; try exact Hpg.
    unfold load_resume. destruct (fetchBody _ o) as [raw|e|]; cbn; try exact Hpg.
    discriminate.
  - destruct (promises pg !! caller) as [[| |]|]; try exact Hpg.
    destruct (load_poll (world pg)); exact Hpg.
Qed.
End Overlap.

(** C5, the part that holds: however many calls of [load()] arrive while
    the first fetch is in flight, one catalog request is issued; when the
    fetch succeeds, the first caller and, at its next interval, every
    waiting caller get the same products. *)
Lemma overlapping_loads_share_one_fetch (entry : SessionEntry) (writable : bool)
    (t0 t2 : Z) (times : list Z) (raw : list RawProduct) (caller : nat) :
  (loadFromCache t0 (arriving entry)).1 = None →
  (0 < caller ≤ length times)%nat →
  let waiting := runPage (freshPage entry writable) (CallLoad <$> t0 :: times) in
  let settled :=
    runPage waiting [FetchSettles 0 (Responded true (Some raw)) t2;
                     IntervalFires caller] in
  requests (world waiting) = [CatalogRequest CONFIG.MAX_PRODUCTS]
  ∧ promises waiting = OnFetch :: replicate (length times) OnInterval
  ∧ requests (world settled) = [CatalogRequest CONFIG.MAX_PRODUCTS]
  ∧ promises settled !! 0%nat = Some (Settled (toProduct <$> raw))
  ∧ promises settled !! caller = Some (Settled (toProduct <$> raw)).
Proof.
  intros Hmiss Hcaller waiting settled.
  destruct (first_call_fetches entry writable t0 Hmiss) as (entry' & Hfirst).
  assert (Hwaiting : waiting
    = mkPage (mkWorld (mkCatalog [] true false) entry' writable
                [CatalogRequest CONFIG.MAX_PRODUCTS])
        (OnFetch :: replicate (length times) OnInterval)).
  { subst waiting. cbn [fmap list_fmap runPage foldl]. rewrite Hfirst.
    match goal with |- foldl pageStep ?pg _ = _ =>
      change (runPage pg (CallLoad <$> times) = mkPage (mkWorld (mkCatalog [] true false) entry' writable
                [CatalogRequest CONFIG.MAX_PRODUCTS])
        (OnFetch :: replicate (length times) OnInterval))
    end.
    rewrite overlapping_calls_wait by reflexivity. reflexivity. }
  subst settled. rewrite Hwaiting. clear Hwaiting waiting Hfirst.
  split; [reflexivity|]. split; [reflexivity|].
  set (w := mkWorld (mkCatalog [] true false) entry' writable
              [CatalogRequest CONFIG.MAX_PRODUCTS]).
  set (waiters := replicate (length times) OnInterval).
  destruct (load_resume_succeeded raw t2 w) as (w' & Hres & Hcat & Hreq).
  destruct caller as [|caller]; [lia|].
  assert (Hlook : waiters !! caller = Some OnInterval)
    by (apply lookup_replicate_2; lia).
  cbn [runPage foldl].
  rewrite (fetch_settles (mkPage w (OnFetch :: waiters)) 0%nat _ _ _ _ eq_refl Hres).
  cbn [promises insert list_insert].
  rewrite interval_settles; cbn [world promises];
    [|exact Hlook | rewrite Hcat; reflexivity].
  rewrite Hcat. cbn [products]. split; [exact Hreq|]. split; [reflexivity|].
  change (<[caller:=Settled (toProduct <$> raw)]> waiters !! caller
          = Some (Settled (toProduct <$> raw))).
  apply list_lookup_insert_eq. subst waiters. rewrite length_replicate. lia.
Qed.

(** C5: a failed fetch strands the callers that waited for it.  On a page
    without a usable session entry, let calls of [load()] overlap the first
    one and let the fetch fail.  One catalog request was made and the first
    caller gets the empty list, but the instance is left as new and every
    waiting caller still waits, whatever number of interval callbacks run
    afterwards. *)
Theorem waiters_stranded_by_failed_fetch (entry : SessionEntry) (writable : bool)
    (t0 t2 : Z) (times : list Z) (o : FetchOutcome) (ticks : list nat) :
  (loadFromCache t0 (arriving entry)).1 = None →
  fetchFails o = true →
  let pg :=
    runPage (freshPage entry writable)
      ((CallLoad <$> t0 :: times) ++ [FetchSettles 0 o t2]
       ++ (IntervalFires <$> ticks)) in
  requests (world pg) = [CatalogRequest CONFIG.MAX_PRODUCTS]
  ∧ promises pg = Settled [] :: replicate (length times) OnInterval
  ∧ catalog (world pg) = newCatalog.
Proof.
  intros Hmiss Hfail pg. subst pg.
  destruct (first_call_fetches entry writable t0 Hmiss) as (entry' & Hfirst).
  unfold runPage. rewrite !foldl_app. cbn [fmap list_fmap foldl].
  rewrite Hfirst.
  set (w := mkWorld (mkCatalog [] true false) entry' writable
              [CatalogRequest CONFIG.MAX_PRODUCTS]).
  fold (runPage (mkPage w [OnFetch]) (CallLoad <$> times)).
  rewrite overlapping_calls_wait by reflexivity. cbn [world promises app].
  rewrite (fetch_settles
             (mkPage w (OnFetch :: replicate (length times) OnInterval))
             0%nat o t2 _ _ eq_refl (load_resume_failed o t2 w Hfail)).
  cbn [promises insert list_insert].
  match goal with |- context [foldl pageStep ?pg0 _] =>
    fold (runPage pg0 (IntervalFires <$> ticks))
  end.
  rewrite intervals_keep_waiting by reflexivity.
  repeat split.
Qed.

Lemma waiters_stranded_by_failed_fetch_witness :
  let pg :=
    runPage (freshPage NoEntry true)
      [CallLoad 0; CallLoad 10; FetchSettles 0 Rejected 200;
       IntervalFires 1; IntervalFires 1; IntervalFires 1] in
  requests (world pg) = [CatalogRequest CONFIG.MAX_PRODUCTS]
  ∧ promises pg = [Settled []; OnInterval]
  ∧ catalog (world pg) = newCatalog.
Proof.
  exact (waiters_stranded_by_failed_fetch NoEntry true 0 200 [10%Z] Rejected
           [1; 1; 1]%nat eq_refl eq_refl).
Defined.


(** * Further properties of the engine *)

Ltac decide_by_evaluation := apply (bool_decide_unpack _); vm_compute; exact I.

(** ** Jaccard similarity and scores *)

Section Similarity.
Implicit Types (a b : list string) (X Y : gset string).

Lemma common_values X Y : filter (λ v, v ∈ Y) X = X ∩ Y.
Proof. apply set_eq. intros v. rewrite elem_of_filter, elem_of_intersection. tauto. Qed.

Lemma list_to_set_empty_inv a : list_to_set a =@{gset string} ∅ → a = [].
Proof.
  destruct a as [|v a]; [reflexivity|]. intros Hempty. exfalso.
  assert (v ∈ (list_to_set (v :: a) : gset string)) as Hv by set_solver.
  rewrite Hempty in Hv. set_solver.
Qed.

(** The quotient of the sizes, for lists that are not empty. *)
Lemma jaccardSimilarity_quotient a b :
  a ≠ [] → b ≠ [] →
  jaccardSimilarity a b
  = (inject_Z (Z.of_nat (size (list_to_set a ∩ list_to_set b : gset string)))
     / inject_Z (Z.of_nat (size (list_to_set a ∪ list_to_set b : gset string))))%Q.
Proof.
  intros Ha Hb. unfold jaccardSimilarity.
  destruct a as [|v a]; [congruence|]. destruct b as [|u b]; [congruence|].
  cbn [length Nat.eqb orb]. cbv zeta. rewrite common_values. reflexivity.
Qed.

Lemma union_size_positive a b :
  a ≠ [] → (0 < size (list_to_set a ∪ list_to_set b : gset string))%nat.
Proof.
  intros Ha.
  destruct (decide (size (list_to_set a ∪ list_to_set b : gset string) = 0%nat))
    as [Hz|]; [|lia].
  apply size_empty_inv in Hz. exfalso. apply Ha, list_to_set_empty_inv.
  set_solver.
Qed.

(** A quotient of two sizes against 0 and 1. *)
Lemma size_quotient (i n : nat) :
  (0 < n)%nat →
  let r := (inject_Z (Z.of_nat i) / inject_Z (Z.of_nat n))%Q in
  (r == 0 ↔ i = 0%nat)%Q ∧ (r == 1 ↔ i = n)%Q ∧ (0 < r ↔ (0 < i)%nat)%Q.
Proof.
  intros Hn r. subst r. destruct n as [|n]; [lia|].
  unfold Qdiv, Qinv, Qmult, Qeq, Qlt, inject_Z; cbn [Qnum Qden].
  rewrite Nat2Z.inj_succ. unfold Z.succ.
  destruct (Z.of_nat n + 1)%Z eqn:Hp; try lia.
  cbn [Qnum Qden]. repeat split; intros; lia.
Qed.
(** The similarity of two lists that are not empty is positive exactly
    when they share a value. *)
Lemma jaccardSimilarity_extremes_aux a b :
  a ≠ [] → b ≠ [] →
  ((0 < jaccardSimilarity a b)%Q ↔ shares a b)
  ∧ (0 <= jaccardSimilarity a b)%Q.
Proof.
  intros Ha Hb. split; [|apply jaccardSimilarity_range].
  rewrite jaccardSimilarity_quotient by assumption.
  destruct (size_quotient
              (size (list_to_set a ∩ list_to_set b : gset string))
              (size (list_to_set a ∪ list_to_set b : gset string))
              (union_size_positive a b Ha)) as (_ & _ & Hpos).
  cbv zeta in Hpos. rewrite Hpos. clear Hpos. unfold shares. split.
  - intros (v & Hv)%size_pos_elem_of. exists v. set_solver.
  - intros (v & Hva & Hvb).
    destruct (decide (size (list_to_set a ∩ list_to_set b : gset string) = 0%nat))
      as [Hz|]; [|lia].
    apply size_empty_inv in Hz. exfalso.
    assert (v ∈ (list_to_set a ∩ list_to_set b : gset string)) as Hv by set_solver.
    rewrite Hz in Hv. set_solver.
Qed.
End Similarity.

(** X1.  The similarity of two value lists is a number between 0 and 1,
    and it is 0 when either list is empty. *)
Theorem jaccardSimilarity_between_zero_and_one (a b : list string) :
  ((0 <= jaccardSimilarity a b)%Q ∧ (jaccardSimilarity a b <= 1)%Q)
  ∧ (a = [] ∨ b = [] → jaccardSimilarity a b = 0%Q).
Proof.
  split; [apply jaccardSimilarity_range|].
  intros [-> | ->];
    [apply jaccardSimilarity_empty_l | apply jaccardSimilarity_empty_r].
Qed.

(** X2.  Only the sets of values matter: repeating a value or listing the
    values in another order gives the same similarity. *)
Theorem jaccardSimilarity_of_sets (a a' b b' : list string) :
  list_to_set a =@{gset string} list_to_set a' →
  list_to_set b =@{gset string} list_to_set b' →
  jaccardSimilarity a b = jaccardSimilarity a' b'.
Proof.
  intros Ha Hb.
  destruct a as [|v a].
  { rewrite (list_to_set_empty_inv a') by (rewrite <- Ha; reflexivity).
    reflexivity. }
  destruct b as [|u b].
  { rewrite (list_to_set_empty_inv b') by (rewrite <- Hb; reflexivity).
    rewrite !jaccardSimilarity_empty_r. reflexivity. }
  assert (a' ≠ []).
  { intros ->. apply (list_to_set_empty_inv (v :: a)) in Ha. discriminate. }
  assert (b' ≠ []).
  { intros ->. apply (list_to_set_empty_inv (u :: b)) in Hb. discriminate. }
  rewrite !jaccardSimilarity_quotient by (assumption || discriminate).
  rewrite Ha, Hb. reflexivity.
Qed.

Lemma jaccardSimilarity_of_sets_witness :
  jaccardSimilarity ["frogs"; "dogs"; "frogs"] ["cats"; "dogs"]
  = jaccardSimilarity ["dogs"; "frogs"] ["dogs"; "cats"; "cats"].
Proof.
  apply jaccardSimilarity_of_sets; vm_compute; reflexivity.
Defined.

(** X3.  For lists that are not empty the similarity is 1 exactly when
    both lists hold the same values, and it is 0 exactly when they have no
    value in common. *)
Theorem jaccardSimilarity_extremes (a b : list string) :
  a ≠ [] → b ≠ [] →
  ((jaccardSimilarity a b == 1)%Q ↔ ∀ v, v ∈ a ↔ v ∈ b)
  ∧ ((jaccardSimilarity a b == 0)%Q ↔ ¬ shares a b).
Proof.
  intros Ha Hb. rewrite jaccardSimilarity_quotient by assumption.
  destruct (size_quotient
              (size (list_to_set a ∩ list_to_set b : gset string))
              (size (list_to_set a ∪ list_to_set b : gset string))
              (union_size_positive a b Ha)) as (Hzero & Hone & _).
  cbv zeta in Hzero, Hone. rewrite Hzero, Hone. clear Hzero Hone. split.
  - split.
    + intros Hsize v.
      assert ((list_to_set a ∩ list_to_set b : gset string)
              ≡ list_to_set a ∪ list_to_set b) as Heq.
      { apply set_subseteq_size_equiv; [set_solver | lia]. }
      split; intros Hv.
      * assert (v ∈ (list_to_set a ∪ list_to_set b : gset string)) as Hu
          by set_solver.
        rewrite <- Heq in Hu. set_solver.
      * assert (v ∈ (list_to_set a ∪ list_to_set b : gset string)) as Hu
          by set_solver.
        rewrite <- Heq in Hu. set_solver.
    + intros Hsame. f_equal. apply leibniz_equiv. set_solver.
  - rewrite size_empty_iff. unfold shares. split.
    + intros Hempty (v & Hva & Hvb).
      assert (v ∈ (list_to_set a ∩ list_to_set b : gset string)) as Hv
        by set_solver.
      rewrite Hempty in Hv. set_solver.
    + intros Hnone. apply elem_of_equiv_empty. intros v Hv.
      apply Hnone. exists v. set_solver.
Qed.

Lemma jaccardSimilarity_extremes_witness :
  ((jaccardSimilarity ["frogs"; "dogs"] ["dogs"; "frogs"; "dogs"] == 1)%Q
   ↔ ∀ v, v ∈ ["frogs"; "dogs"] ↔ v ∈ ["dogs"; "frogs"; "dogs"])
  ∧ ((jaccardSimilarity ["frogs"; "dogs"] ["dogs"; "frogs"; "dogs"] == 0)%Q
     ↔ ¬ shares ["frogs"; "dogs"] ["dogs"; "frogs"; "dogs"]).
Proof.
  apply jaccardSimilarity_extremes; discriminate.
Defined.

Section Scores.
Implicit Types (p a : ParsedTags) (xs ys : list string) (weight : Q).

Lemma positive_spec (q : Q) : positive q = true ↔ (0 < q)%Q.
Proof.
  unfold positive. rewrite negb_true_iff, <- not_true_iff_false, Qle_bool_iff.
  split; [apply Qnot_le_lt | apply Qlt_not_le].
Qed.

Lemma nonEmpty_spec xs : nonEmpty xs = true ↔ xs ≠ [].
Proof. destruct xs; cbn; split; congruence. Qed.

Lemma shares_nonEmpty xs ys : shares xs ys → xs ≠ [] ∧ ys ≠ [].
Proof.
  intros (v & Hx & Hy). split; intros ->; by apply not_elem_of_nil in Hx || by apply not_elem_of_nil in Hy.
Qed.

Lemma contribution_range weight xs ys :
  (0 <= weight)%Q →
  (0 <= contribution weight xs ys)%Q ∧ (contribution weight xs ys <= weight)%Q.
Proof.
  intros Hw. unfold contribution.
  destruct (nonEmpty ys && nonEmpty xs); [|split; [apply Qle_refl | exact Hw]].
  destruct (jaccardSimilarity_range xs ys) as [H0 H1]. split; nra.
Qed.

Lemma contribution_positive weight xs ys :
  (0 < weight)%Q →
  (0 < contribution weight xs ys)%Q ↔ shares xs ys.
Proof.
  intros Hw. unfold contribution.
  destruct (nonEmpty ys && nonEmpty xs) eqn:Hguard.
  - apply andb_true_iff in Hguard as [Hy%nonEmpty_spec Hx%nonEmpty_spec].
    destruct (jaccardSimilarity_extremes_aux xs ys Hx Hy) as [Hpos Hrange].
    rewrite <- Hpos. split; intros; nra.
  - split; [intros H; exfalso; revert H; apply Qlt_irrefl|].
    intros [Hx Hy]%shares_nonEmpty.
    apply nonEmpty_spec in Hx, Hy. rewrite Hx, Hy in Hguard. discriminate.
Qed.

Lemma scoreProduct_interest p a :
  (scoreProduct p a "interest"
   == 3 * contribution CONFIG.TAG_WEIGHTS.interest (interest p) (interest a))%Q.
Proof.
  unfold scoreProduct, contribution. cbn [String.eqb Ascii.eqb Bool.eqb].
  destruct (nonEmpty (interest a) && nonEmpty (interest p)); ring.
Qed.

Lemma scoreProduct_occasion p a :
  (scoreProduct p a "occasion"
   == 3 * contribution CONFIG.TAG_WEIGHTS.occasion (occasion p) (occasion a))%Q.
Proof.
  unfold scoreProduct, contribution. cbn [String.eqb Ascii.eqb Bool.eqb].
  destruct (nonEmpty (occasion a) && nonEmpty (occasion p)); ring.
Qed.

Lemma scoreProduct_otherwise p a mode :
  (mode =? "interest") = false → (mode =? "occasion") = false →
  (scoreProduct p a mode
   == contribution CONFIG.TAG_WEIGHTS.interest (interest p) (interest a)
      + contribution CONFIG.TAG_WEIGHTS.occasion (occasion p) (occasion a)
      + contribution CONFIG.TAG_WEIGHTS.recipient (recipient p) (recipient a)
      + contribution CONFIG.TAG_WEIGHTS.style (style p) (style a)
      + contribution CONFIG.TAG_WEIGHTS.humour (humour p) (humour a))%Q.
Proof.
  intros Hi Ho. unfold scoreProduct, contribution. rewrite Hi, Ho. cbv zeta.
  destruct (nonEmpty (interest a) && nonEmpty (interest p));
    destruct (nonEmpty (occasion a) && nonEmpty (occasion p));
    destruct (nonEmpty (recipient a) && nonEmpty (recipient p));
    destruct (nonEmpty (style a) && nonEmpty (style p));
    destruct (nonEmpty (humour a) && nonEmpty (humour p)); ring.
Qed.
End Scores.

(** X4.  A candidate scores above zero, and so stays in the running,
    exactly when it shares a value with the anchor in a category the mode
    looks at: interest only, occasion only, or any of the five. *)
Theorem score_positive_iff_shared_value (productTags anchorTags : ParsedTags)
    (mode : string) :
  positive (scoreProduct productTags anchorTags mode) = true
  ↔ if mode =? "interest" then shares (interest productTags) (interest anchorTags)
    else if mode =? "occasion" then
      shares (occasion productTags) (occasion anchorTags)
    else shares (interest productTags) (interest anchorTags)
         ∨ shares (occasion productTags) (occasion anchorTags)
         ∨ shares (recipient productTags) (recipient anchorTags)
         ∨ shares (style productTags) (style anchorTags)
         ∨ shares (humour productTags) (humour anchorTags).
Proof.
  rewrite positive_spec.
  destruct (mode =? "interest") eqn:Hi.
  { apply String.eqb_eq in Hi as ->. rewrite scoreProduct_interest.
    rewrite <- (contribution_positive CONFIG.TAG_WEIGHTS.interest) by reflexivity.
    split; intros; lra. }
  destruct (mode =? "occasion") eqn:Ho.
  { apply String.eqb_eq in Ho as ->. rewrite scoreProduct_occasion.
    rewrite <- (contribution_positive CONFIG.TAG_WEIGHTS.occasion) by reflexivity.
    split; intros; lra. }
  rewrite (scoreProduct_otherwise _ _ _ Hi Ho).
  rewrite <- (contribution_positive CONFIG.TAG_WEIGHTS.interest) by reflexivity.
  rewrite <- (contribution_positive CONFIG.TAG_WEIGHTS.occasion) by reflexivity.
  rewrite <- (contribution_positive CONFIG.TAG_WEIGHTS.recipient) by reflexivity.
  rewrite <- (contribution_positive CONFIG.TAG_WEIGHTS.style) by reflexivity.
  rewrite <- (contribution_positive CONFIG.TAG_WEIGHTS.humour) by reflexivity.
  destruct (contribution_range CONFIG.TAG_WEIGHTS.interest
              (interest productTags) (interest anchorTags)) as [? _]; [discriminate|].
  destruct (contribution_range CONFIG.TAG_WEIGHTS.occasion
              (occasion productTags) (occasion anchorTags)) as [? _]; [discriminate|].
  destruct (contribution_range CONFIG.TAG_WEIGHTS.recipient
              (recipient productTags) (recipient anchorTags)) as [? _]; [discriminate|].
  destruct (contribution_range CONFIG.TAG_WEIGHTS.style
              (style productTags) (style anchorTags)) as [? _]; [discriminate|].
  destruct (contribution_range CONFIG.TAG_WEIGHTS.humour
              (humour productTags) (humour anchorTags)) as [? _]; [discriminate|].
  split; [|intros [?|[?|[?|[?|?]]]]; lra].
  intros Hsum.
  destruct (Qlt_le_dec 0 (contribution CONFIG.TAG_WEIGHTS.interest
              (interest productTags) (interest anchorTags))); [auto|].
  destruct (Qlt_le_dec 0 (contribution CONFIG.TAG_WEIGHTS.occasion
              (occasion productTags) (occasion anchorTags))); [auto|].
  destruct (Qlt_le_dec 0 (contribution CONFIG.TAG_WEIGHTS.recipient
              (recipient productTags) (recipient anchorTags))); [auto|].
  destruct (Qlt_le_dec 0 (contribution CONFIG.TAG_WEIGHTS.style
              (style productTags) (style anchorTags))); [auto|].
  do 4 right. lra.
Qed.

(** X5.  A score is never negative and never above 9 in 'interest' mode,
    6 in 'occasion' mode and 8.5 in any other mode. *)
Theorem score_within_ceiling (productTags anchorTags : ParsedTags) (mode : string) :
  (0 <= scoreProduct productTags anchorTags mode)%Q
  ∧ (scoreProduct productTags anchorTags mode <= scoreCeiling mode)%Q.
Proof.
  unfold scoreCeiling.
  destruct (contribution_range CONFIG.TAG_WEIGHTS.interest
              (interest productTags) (interest anchorTags)) as [? ?]; [discriminate|].
  destruct (contribution_range CONFIG.TAG_WEIGHTS.occasion
              (occasion productTags) (occasion anchorTags)) as [? ?]; [discriminate|].
  destruct (contribution_range CONFIG.TAG_WEIGHTS.recipient
              (recipient productTags) (recipient anchorTags)) as [? ?]; [discriminate|].
  destruct (contribution_range CONFIG.TAG_WEIGHTS.style
              (style productTags) (style anchorTags)) as [? ?]; [discriminate|].
  destruct (contribution_range CONFIG.TAG_WEIGHTS.humour
              (humour productTags) (humour anchorTags)) as [? ?]; [discriminate|].
  unfold CONFIG.TAG_WEIGHTS.interest, CONFIG.TAG_WEIGHTS.occasion,
    CONFIG.TAG_WEIGHTS.recipient, CONFIG.TAG_WEIGHTS.style,
    CONFIG.TAG_WEIGHTS.humour in *.
  destruct (mode =? "interest") eqn:Hi.
  { apply String.eqb_eq in Hi as ->. rewrite scoreProduct_interest.
    unfold CONFIG.TAG_WEIGHTS.interest. split; lra. }
  destruct (mode =? "occasion") eqn:Ho.
  { apply String.eqb_eq in Ho as ->. rewrite scoreProduct_occasion.
    unfold CONFIG.TAG_WEIGHTS.occasion. split; lra. }
  rewrite (scoreProduct_otherwise _ _ _ Hi Ho).
  unfold CONFIG.TAG_WEIGHTS.interest, CONFIG.TAG_WEIGHTS.occasion,
    CONFIG.TAG_WEIGHTS.recipient, CONFIG.TAG_WEIGHTS.style,
    CONFIG.TAG_WEIGHTS.humour.
  split; lra.
Qed.

(** ** Ranking *)

Section Ranking.
Implicit Types (a b item : Scored) (items sorted : list Scored).

Lemma insertByScore_sorted a sorted :
  StronglySorted (λ x y, (score y <= score x)%Q) sorted →
  StronglySorted (λ x y, (score y <= score x)%Q) (insertByScore a sorted).
Proof.
  induction 1 as [|b rest Hrest IH Hb]; cbn [insertByScore].
  - repeat constructor.
  - destruct (Qle_bool (score b) (score a)) eqn:Hle.
    + apply Qle_bool_iff in Hle.
      constructor; [constructor; assumption|].
      constructor; [exact Hle|].
      eapply Forall_impl; [exact Hb|]. cbn. intros x Hx. lra.
    + constructor; [exact IH|].
      rewrite insertByScore_perm. constructor; [|exact Hb].
      destruct (Qlt_le_dec (score a) (score b)) as [Hlt|Hge]; [lra|].
      apply Qle_bool_iff in Hge. congruence.
Qed.

Lemma insertByScore_same_score a sorted q :
  List.filter (λ x, Qeq_bool (score x) q) (insertByScore a sorted)
  = if Qeq_bool (score a) q
    then a :: List.filter (λ x, Qeq_bool (score x) q) sorted
    else List.filter (λ x, Qeq_bool (score x) q) sorted.
Proof.
  induction sorted as [|b rest IH]; cbn [insertByScore List.filter].
  - destruct (Qeq_bool (score a) q); reflexivity.
  - destruct (Qle_bool (score b) (score a)) eqn:Hle; cbn [List.filter].
    + destruct (Qeq_bool (score a) q); reflexivity.
    + rewrite IH.
      destruct (Qeq_bool (score a) q) eqn:Ha; [|reflexivity].
      destruct (Qeq_bool (score b) q) eqn:Hb; [|reflexivity].
      apply Qeq_bool_iff in Ha, Hb.
      assert (Qle_bool (score b) (score a) = true); [|congruence].
      apply Qle_bool_iff. rewrite Ha, Hb. apply Qle_refl.
Qed.
Lemma sortByScore_sorted items :
  StronglySorted (λ x y, (score y <= score x)%Q) (sortByScore items).
Proof.
  induction items as [|a items IH]; [constructor|].
  cbn [sortByScore foldr]. apply insertByScore_sorted, IH.
Qed.
End Ranking.

(** X6.  The sort of the scored items keeps every item, orders them by
    falling score, and leaves items of equal score in the order they had. *)
Theorem sortByScore_descending_and_stable (items : list Scored) :
  sortByScore items ≡ₚ items
  ∧ StronglySorted (λ a b, (score b <= score a)%Q) (sortByScore items)
  ∧ ∀ q, List.filter (λ x, Qeq_bool (score x) q) (sortByScore items)
         = List.filter (λ x, Qeq_bool (score x) q) items.
Proof.
  split; [apply sortByScore_perm|]. split.
  - induction items as [|a items IH]; [constructor|].
    cbn [sortByScore foldr]. apply insertByScore_sorted, IH.
  - intros q. induction items as [|a items IH]; [reflexivity|].
    cbn [sortByScore foldr]. rewrite insertByScore_same_score.
    fold (sortByScore items). rewrite IH. reflexivity.
Qed.

(** X7.  The scored candidates are exactly the available catalog items
    other than the anchor whose score against the anchor is positive, each
    with that score. *)
Theorem scoreCatalog_candidates (ps : list Product) (anchorHandle : string)
    (anchorTags : ParsedTags) (mode : string) (item : Scored) :
  item ∈ scoreCatalog ps anchorHandle anchorTags mode
  ↔ product item ∈ ps
    ∧ handle (product item) ≠ anchorHandle
    ∧ available (product item) = true
    ∧ score item = scoreProduct (parsedTags (product item)) anchorTags mode
    ∧ positive (score item) = true.
Proof.
  split; [apply scoreCatalog_elem|].
  intros (Hin & Hne & Hav & Hscore & Hpos).
  unfold scoreCatalog. rewrite sortByScore_perm.
  apply list_elem_of_filter. split; [by apply Is_true_true|].
  apply list_elem_of_fmap. exists (product item). split.
  - destruct item as [p q]. cbn in *. congruence.
  - apply list_elem_of_filter. split; [by apply Is_true_true|].
    apply list_elem_of_filter. split; assumption.
Qed.

(** ** More on the diversity pass *)

Section Refilter.
Implicit Types (d : Diversity) (item : Scored).

(** Walking only the kept items visits the same states. *)
Lemma diversifyFrom_kept l : ∀ d,
  ∃ kept, result (diversifyFrom d l) = result d ++ kept
          ∧ kept `sublist_of` l
          ∧ diversifyFrom d kept = diversifyFrom d l.
Proof.
  induction l as [|item l IH]; intros d.
  - exists []. rewrite app_nil_r. repeat split; constructor.
  - rewrite diversifyFrom_cons.
    destruct (IH (diversifyStep d item)) as (kept & Hres & Hsub & Hsame).
    destruct (skips d item) eqn:Hskip.
    + rewrite diversifyStep_skip in Hres, Hsame |- * by assumption.
      exists kept. split; [exact Hres|]. split; [by apply sublist_cons | exact Hsame].
    + exists (item :: kept). rewrite Hres, diversifyFrom_cons.
      rewrite (diversifyStep_keep _ _ Hskip) at 1. cbn [result].
      rewrite <- app_assoc. split; [reflexivity|].
      split; [by apply sublist_skip | exact Hsame].
Qed.

Lemma nothing_reached_at_start key cap :
  reaches ∅ key cap = false.
Proof. unfold reaches. destruct (inherited key); [reflexivity|]. by rewrite lookup_empty. Qed.

Lemma first_item_kept item : skips diversifyStart item = false.
Proof.
  unfold skips, skipInterest, diversifyStart. cbn [interestCounts].
  assert (Hnone : ∀ l, existsb (λ i, reaches ∅ i CONFIG.DIVERSITY.max_per_interest) l
                       = false).
  { induction l as [|v l IH]; [reflexivity|]. cbn [existsb].
    rewrite nothing_reached_at_start. exact IH. }
  rewrite Hnone. reflexivity.
Qed.
End Refilter.

(** X8.  Diversifying an already diversified list changes nothing. *)
Theorem diversify_idempotent (scoredProducts : list Scored) :
  diversify (diversify scoredProducts) = diversify scoredProducts.
Proof.
  unfold diversify.
  destruct (diversifyFrom_kept scoredProducts diversifyStart)
    as (kept & Hres & _ & Hsame).
  rewrite Hres. cbn [result diversifyStart app]. fold diversifyStart.
  rewrite Hsame, Hres. reflexivity.
Qed.

(** X9.  The first candidate is always kept: a list that is not empty
    diversifies to a list that starts with the same item. *)
Theorem diversify_keeps_first (item : Scored) (scoredProducts : list Scored) :
  ∃ kept, diversify (item :: scoredProducts) = item :: kept
          ∧ kept `sublist_of` scoredProducts.
Proof.
  unfold diversify. rewrite diversifyFrom_cons.
  rewrite (diversifyStep_keep _ _ (first_item_kept item)).
  match goal with |- context [diversifyFrom ?d _] =>
    destruct (diversifyFrom_appends scoredProducts d) as (kept & -> & Hsub)
  end.
  exists kept. split; [reflexivity | exact Hsub].
Qed.

(** ** The rail as a whole *)

Section WholeRail.
Implicit Types (env : Env) (w : World) (hs : list string).

Lemma getRecommendations_loaded env anchorHandle mode w hs w' :
  getRecommendations env anchorHandle mode w = Returns (hs, w') →
  ∃ loadedProducts w1, load env w = Returns (loadedProducts, w1).
Proof.
  unfold getRecommendations.
  destruct (load env w) as [[loadedProducts w1]|e|]; cbn; try discriminate.
  eauto.
Qed.

Lemma getFallbackRecommendations_handles env limit w :
  ∃ hs, getFallbackRecommendations env limit w
        = Returns (hs, issue (BestsellerRequest limit) w)
        ∧ (fetchFails (bestsellerResponse env limit) = true ∧ hs = []
           ∨ ∃ raw, bestsellerResponse env limit = Responded true (Some raw)
                    ∧ hs = take limit
                             (raw_handle <$> filter (λ p, raw_available p) raw)).
Proof.
  unfold getFallbackRecommendations.
  destruct (bestsellerResponse env limit) as [|[] [raw|]]; cbn;
    try (exists []; split; [reflexivity|]; left; split; reflexivity).
  eexists. split; [reflexivity|]. right. eauto.
Qed.

(** A handle the bestseller source contributes is the handle of an
    available product of its answer. *)
Lemma bestseller_handle_available env limit w hs w' h :
  getFallbackRecommendations env limit w = Returns (hs, w') →
  h ∈ hs →
  ∃ raw r, bestsellerResponse env limit = Responded true (Some raw)
           ∧ r ∈ raw ∧ raw_handle r = h ∧ raw_available r = true.
Proof.
  intros Hfb Hh.
  destruct (getFallbackRecommendations_handles env limit w)
    as (hs0 & Hfb0 & [[_ ->] | (raw & Hresp & ->)]);
    rewrite Hfb0 in Hfb; injection Hfb as <- <-.
  - inversion Hh.
  - apply (sublist_subseteq _ _ (sublist_take _ _)) in Hh.
    apply list_elem_of_fmap in Hh as (r & -> & Hr).
    apply list_elem_of_filter in Hr as [Hav Hr].
    exists raw, r. repeat split; try assumption. by apply Is_true_true.
Qed.

Lemma bestseller_handles_sublist env limit w hs w' raw :
  getFallbackRecommendations env limit w = Returns (hs, w') →
  bestsellerResponse env limit = Responded true (Some raw) →
  hs `sublist_of` raw_handle <$> raw.
Proof.
  intros Hfb Hresp.
  destruct (getFallbackRecommendations_handles env limit w)
    as (hs0 & Hfb0 & [[Hfail _] | (raw' & Hresp' & ->)]);
    rewrite Hfb0 in Hfb; injection Hfb as <- <-.
  - rewrite Hresp in Hfail. discriminate.
  - rewrite Hresp in Hresp'. injection Hresp' as <-.
    etransitivity; [apply sublist_take|].
    apply fmap_sublist, sublist_filter.
Qed.

(** The handles taken from scoring are handles of catalog items, in the
    order of a sublist of the sorted candidates. *)
Lemma recommendedOf_scored ps anchorHandle anchorTags mode h :
  h ∈ recommendedOf (diversify (scoreCatalog ps anchorHandle anchorTags mode)) →
  ∃ item, item ∈ scoreCatalog ps anchorHandle anchorTags mode
          ∧ handle (product item) = h.
Proof.
  unfold recommendedOf. intros (item & -> & Hitem)%list_elem_of_fmap.
  apply (sublist_subseteq _ _ (sublist_take _ _)) in Hitem.
  apply diversify_subsequence_elem in Hitem. eauto.
Qed.

Lemma recommendedOf_NoDup ps anchorHandle anchorTags mode :
  NoDup (handle <$> ps) →
  NoDup (recommendedOf (diversify (scoreCatalog ps anchorHandle anchorTags mode))).
Proof.
  intros Hps. unfold recommendedOf.
  assert (Hsub : take CONFIG.RAIL_SIZE
                   (diversify (scoreCatalog ps anchorHandle anchorTags mode))
                 `sublist_of` scoreCatalog ps anchorHandle anchorTags mode).
  { etransitivity; [apply sublist_take|].
    unfold diversify.
    destruct (diversifyFrom_appends (scoreCatalog ps anchorHandle anchorTags mode)
                diversifyStart) as (kept & -> & Hkept).
    exact Hkept. }
  eapply sublist_NoDup;
    [|apply (fmap_sublist (λ item, handle (product item))), Hsub].
  unfold scoreCatalog. rewrite sortByScore_perm.
  eapply sublist_NoDup;
    [|apply (fmap_sublist (λ item, handle (product item))), sublist_filter].
  rewrite <- list_fmap_compose.
  eapply sublist_NoDup; [exact Hps|].
  apply (fmap_sublist handle).
  etransitivity; apply sublist_filter.
Qed.
End WholeRail.

(** X10.  A rail never has more than six handles, and every handle on it
    is either the handle of an available catalog item other than the
    anchor or the handle of an available product of the bestseller
    answer. *)
Theorem recommendations_bounded_and_available (env : Env)
    (anchorHandle mode : string) (w : World) (hs : list string) (w' : World) :
  getRecommendations env anchorHandle mode w = Returns (hs, w') →
  (length hs ≤ CONFIG.RAIL_SIZE)%nat
  ∧ ∀ h, h ∈ hs →
      (∃ p, p ∈ products (catalog w') ∧ handle p = h ∧ h ≠ anchorHandle
            ∧ available p = true)
      ∨ (∃ limit raw r,
           bestsellerResponse env limit = Responded true (Some raw)
           ∧ r ∈ raw ∧ raw_handle r = h ∧ raw_available r = true).
Proof.
  intros Hget.
  destruct (getRecommendations_loaded _ _ _ _ _ _ Hget) as (x & w1 & Hload).
  destruct (findByHandle (products (catalog w1)) anchorHandle)
    as [anchorProduct|] eqn:Hfind.
  - assert (Hscored : ∀ h,
      h ∈ recommendedOf (diversify (scoreCatalog (products (catalog w1))
                                      anchorHandle (parsedTags anchorProduct) mode)) →
      ∃ p, p ∈ products (catalog w1) ∧ handle p = h ∧ h ≠ anchorHandle
           ∧ available p = true).
    { intros h (item & Hitem & <-)%recommendedOf_scored.
      apply scoreCatalog_elem in Hitem as (Hin & Hne & Hav & _).
      exists (product item). repeat split; assumption. }
    destruct (getRecommendations_found env anchorHandle mode w _ _ _ Hload Hfind)
      as [(Hshort & bestsellers & Hfb & Hres) | (Hfull & Hres)];
      rewrite Hres in Hget; injection Hget as <- <-.
    + split; [rewrite length_app, length_take; lia|].
      intros h [Hh|Hh]%elem_of_app; [left; by apply Hscored|].
      right. apply (sublist_subseteq _ _ (sublist_take _ _)) in Hh.
      apply list_elem_of_filter in Hh as [_ Hh].
      destruct (bestseller_handle_available _ _ _ _ _ _ Hfb Hh)
        as (raw & r & ?). eauto.
    + split; [lia|]. intros h Hh. left. by apply Hscored.
  - rewrite (getRecommendations_not_found _ _ _ _ _ _ Hload Hfind) in Hget.
    destruct (getFallbackRecommendations_returns env CONFIG.RAIL_SIZE w1)
      as (hs0 & Hfb0 & Hlen & _).
    assert (hs0 = hs) as -> by congruence.
    split; [exact Hlen|]. intros h Hh. right.
    destruct (bestseller_handle_available _ _ _ _ _ _ Hget Hh) as (raw & r & ?).
    eauto.
Qed.

Lemma recommendations_bounded_and_available_witness :
  (length ["frog-one"; "plain-card"; "frog-hello"] ≤ CONFIG.RAIL_SIZE)%nat
  ∧ ∀ h, h ∈ ["frog-one"; "plain-card"; "frog-hello"] →
      (∃ p, p ∈ [frogHello; frogOne; plainCard] ∧ handle p = h ∧ h ≠ "frog-hello"
            ∧ available p = true)
      ∨ (∃ limit raw r,
           bestsellerResponse bestsellerShop limit = Responded true (Some raw)
           ∧ r ∈ raw ∧ raw_handle r = h ∧ raw_available r = true).
Proof.
  exact (recommendations_bounded_and_available bestsellerShop "frog-hello" "similar"
           (readyWorld [frogHello; frogOne; plainCard])
           ["frog-one"; "plain-card"; "frog-hello"]
           (issue (BestsellerRequest 4) (readyWorld [frogHello; frogOne; plainCard]))
           eq_refl).
Defined.

(** X11.  When catalog handles are unique and every bestseller answer
    lists each handle once, no handle appears twice on the rail. *)
Theorem recommendations_without_duplicates (env : Env)
    (anchorHandle mode : string) (w : World) (hs : list string) (w' : World) :
  getRecommendations env anchorHandle mode w = Returns (hs, w') →
  NoDup (handle <$> products (catalog w')) →
  (∀ limit raw, bestsellerResponse env limit = Responded true (Some raw) →
                NoDup (raw_handle <$> raw)) →
  NoDup hs.
Proof.
  intros Hget Hcat Hbest.
  assert (Hfallback : ∀ limit w0 hs0 w0',
            getFallbackRecommendations env limit w0 = Returns (hs0, w0') → NoDup hs0).
  { intros limit w0 hs0 w0' Hfb.
    destruct (getFallbackRecommendations_handles env limit w0)
      as (hs1 & Hfb1 & [[_ ->] | (raw & Hresp & Hhs)]);
      rewrite Hfb1 in Hfb; injection Hfb as <- <-; [constructor|].
    eapply sublist_NoDup; [exact (Hbest _ _ Hresp)|].
    eapply bestseller_handles_sublist; eassumption. }
  destruct (getRecommendations_loaded _ _ _ _ _ _ Hget) as (x & w1 & Hload).
  destruct (findByHandle (products (catalog w1)) anchorHandle)
    as [anchorProduct|] eqn:Hfind.
  - destruct (getRecommendations_found env anchorHandle mode w _ _ _ Hload Hfind)
      as [(Hshort & bestsellers & Hfb & Hres) | (Hfull & Hres)];
      rewrite Hres in Hget; injection Hget as <- <-.
    + apply NoDup_app. split; [by apply recommendedOf_NoDup|]. split.
      * intros h Hh Hh'.
        apply (sublist_subseteq _ _ (sublist_take _ _)) in Hh'.
        apply list_elem_of_filter in Hh' as [Hnew _]. exact (Hnew Hh).
      * eapply sublist_NoDup; [|apply sublist_take].
        apply NoDup_filter. eapply Hfallback, Hfb.
    + by apply recommendedOf_NoDup.
  - rewrite (getRecommendations_not_found _ _ _ _ _ _ Hload Hfind) in Hget.
    eapply Hfallback, Hget.
Qed.

Lemma recommendations_without_duplicates_witness :
  NoDup ["frog-one"; "plain-card"; "frog-hello"].
Proof.
  refine (recommendations_without_duplicates bestsellerShop "frog-hello" "similar"
            (readyWorld [frogHello; frogOne; plainCard])
            ["frog-one"; "plain-card"; "frog-hello"]
            (issue (BestsellerRequest 4) (readyWorld [frogHello; frogOne; plainCard]))
            eq_refl _ _).
  - decide_by_evaluation.
  - intros limit raw Hresp. injection Hresp as <-.
    decide_by_evaluation.
Defined.

(** X12.  When there is a candidate, the rail starts with a candidate
    whose score no other candidate exceeds. *)
Theorem best_candidate_leads_the_rail (env : Env) (anchorHandle mode : string)
    (w : World) (loadedProducts : list Product) (w1 : World)
    (anchorProduct : Product) (candidate : Scored) :
  load env w = Returns (loadedProducts, w1) →
  findByHandle (products (catalog w1)) anchorHandle = Some anchorProduct →
  candidate ∈ scoreCatalog (products (catalog w1)) anchorHandle
                (parsedTags anchorProduct) mode →
  ∃ top others,
    returned (getRecommendations env anchorHandle mode w)
    = Some (handle (product top) :: others)
    ∧ top ∈ scoreCatalog (products (catalog w1)) anchorHandle
              (parsedTags anchorProduct) mode
    ∧ ∀ item, item ∈ scoreCatalog (products (catalog w1)) anchorHandle
                       (parsedTags anchorProduct) mode →
              (score item <= score top)%Q.
Proof.
  intros Hload Hfind Hcandidate.
  pose proof (getRecommendations_found env anchorHandle mode w _ _ _ Hload Hfind)
    as Hfound. cbv zeta in Hfound.
  assert (Hsorted : StronglySorted (λ a b, (score b <= score a)%Q)
                      (scoreCatalog (products (catalog w1)) anchorHandle
                         (parsedTags anchorProduct) mode))
    by (unfold scoreCatalog; apply sortByScore_sorted).
  destruct (scoreCatalog (products (catalog w1)) anchorHandle
              (parsedTags anchorProduct) mode) as [|top rest];
    [inversion Hcandidate|].
  destruct (diversifyFrom_appends rest
              (diversifyStep diversifyStart top)) as (kept & Hkept & _).
  assert (Hdiv : diversify (top :: rest) = top :: kept).
  { unfold diversify. rewrite diversifyFrom_cons, Hkept.
    rewrite (diversifyStep_keep _ _ (first_item_kept top)). reflexivity. }
  assert (Hrec : ∃ more, recommendedOf (diversify (top :: rest))
                         = handle (product top) :: more).
  { rewrite Hdiv. unfold recommendedOf. cbn. eauto. }
  destruct Hrec as (more & Hrec). rewrite Hrec in Hfound.
  assert (Htop : ∀ item, item ∈ top :: rest → (score item <= score top)%Q).
  { intros item [->|Hitem]%elem_of_cons; [apply Qle_refl|].
    apply StronglySorted_inv in Hsorted as [_ Hall].
    rewrite Forall_forall in Hall. apply Hall, Hitem. }
  exists top.
  destruct Hfound as [(_ & bestsellers & _ & ->) | (_ & ->)];
    cbn [returned app]; eexists; (split; [reflexivity|]);
    (split; [left | exact Htop]).
Qed.

Lemma best_candidate_leads_the_rail_witness :
  ∃ top others,
    returned (getRecommendations offline "frog-hello" "similar"
                (readyWorld [frogHello; plainCard; frogDog; frogOne]))
    = Some (handle (product top) :: others)
    ∧ top ∈ scoreCatalog [frogHello; plainCard; frogDog; frogOne] "frog-hello"
              (parsedTags frogHello) "similar"
    ∧ ∀ item, item ∈ scoreCatalog [frogHello; plainCard; frogDog; frogOne]
                       "frog-hello" (parsedTags frogHello) "similar" →
              (score item <= score top)%Q.
Proof.
  refine (best_candidate_leads_the_rail offline "frog-hello" "similar"
            (readyWorld [frogHello; plainCard; frogDog; frogOne])
            [frogHello; plainCard; frogDog; frogOne]
            (readyWorld [frogHello; plainCard; frogDog; frogOne])
            frogHello (scoredAgainst frogHello "similar" plainCard)
            eq_refl eq_refl _).
  apply list_elem_of_In. vm_compute. auto 10.
Defined.

(** ** Requests and the cache *)

Section Network.
Implicit Types (env : Env) (w : World).

Lemma load_requests env w loadedProducts w1 :
  load env w = Returns (loadedProducts, w1) →
  requests w1 = requests w
  ∨ requests w1 = requests w ++ [CatalogRequest CONFIG.MAX_PRODUCTS]
    ∧ loaded (catalog w) = false.
Proof.
  unfold load, load_enter.
  destruct (loaded (catalog w)) eqn:Hloaded.
  { intros [= <- <-]. left. reflexivity. }
  destruct (loading (catalog w)); [discriminate|].
  rewrite loadFromCache_setCatalog.
  pose proof (loadFromCache_requests (clockAtLoad env) w) as Hreq.
  destruct (loadFromCache (clockAtLoad env) w) as [[cached|] w0]; cbn [fst snd] in *.
  - intros [= <- <-]. left. exact Hreq.
  - intros Hres.
    destruct (load_resume_returns (catalogResponse env) (clockAtSave env)
                (issue (CatalogRequest CONFIG.MAX_PRODUCTS)
                   (setCatalog (mkCatalog (products (catalog w)) true false) w0)))
      as (ps & w' & Hres' & Hreq' & _).
    rewrite Hres' in Hres. injection Hres as <- <-.
    right. split; [|reflexivity]. rewrite Hreq'. cbn. rewrite Hreq. reflexivity.
Qed.

Lemma load_catalog_after env w loadedProducts w1 :
  load env w = Returns (loadedProducts, w1) →
  loaded (catalog w1) = true ∧ products (catalog w1) = loadedProducts
  ∨ loadedProducts = [] ∧ fetchFails (catalogResponse env) = true
    ∧ loaded (catalog w1) = false ∧ loading (catalog w1) = false.
Proof.
  unfold load, load_enter.
  destruct (loaded (catalog w)) eqn:Hloaded.
  { intros [= <- <-]. left. split; [assumption | reflexivity]. }
  destruct (loading (catalog w)); [discriminate|].
  rewrite loadFromCache_setCatalog.
  destruct (loadFromCache (clockAtLoad env) w) as [[cached|] w0]; cbn [fst snd].
  { intros [= <- <-]. left. split; reflexivity. }
  unfold load_resume.
  destruct (catalogResponse env) as [|[] [raw|]]; cbn; intros [= <- <-];
    try (right; repeat split; reflexivity).
  left. split; reflexivity.
Qed.
End Network.



(** X14.  The bestseller source makes one request and never fails the
    caller: a failed fetch gives the empty list, and an answer gives the
    handles of its first [limit] available products, in the answer's
    order: the first [limit] entries of the list of available handles. *)
Theorem fallback_lists_available_bestsellers (env : Env) (limit : nat) (w : World) :
  ∃ hs,
    getFallbackRecommendations env limit w
    = Returns (hs, issue (BestsellerRequest limit) w)
    ∧ (fetchFails (bestsellerResponse env limit) = true → hs = [])
    ∧ ∀ raw, bestsellerResponse env limit = Responded true (Some raw) →
        hs = take limit (raw_handle <$> filter (λ p, raw_available p) raw)
        ∧ hs `prefix_of` raw_handle <$> filter (λ p, raw_available p) raw
        ∧ hs `sublist_of` raw_handle <$> raw
        ∧ length hs
          = (limit `min` length (filter (λ p, raw_available p) raw))%nat
        ∧ ∀ h, h ∈ hs → ∃ r, r ∈ raw ∧ raw_handle r = h ∧ raw_available r = true.
Proof.
  destruct (getFallbackRecommendations_handles env limit w)
    as (hs & Hfb & Hcases).
  exists hs. split; [exact Hfb|]. split.
  - intros Hfail. destruct Hcases as [[_ ->] | (raw & Hresp & _)]; [reflexivity|].
    rewrite Hresp in Hfail. discriminate.
  - intros raw Hresp.
    assert (Hhs : hs = take limit
                         (raw_handle <$> filter (λ p, raw_available p) raw)).
    { destruct Hcases as [[Hfail _] | (raw' & Hresp' & ->)].
      - rewrite Hresp in Hfail. discriminate.
      - rewrite Hresp in Hresp'. injection Hresp' as <-. reflexivity. }
    split; [exact Hhs|]. split; [rewrite Hhs; apply prefix_take|].
    split; [eapply bestseller_handles_sublist; eassumption|].
    split.
    + rewrite Hhs, length_take, length_fmap. reflexivity.
    + intros h Hh.
      destruct (bestseller_handle_available _ _ _ _ _ _ Hfb Hh)
        as (raw' & r & Hresp' & Hr & Hhandle & Hav).
      rewrite Hresp in Hresp'. injection Hresp' as <-. eauto.
Qed.

(** X15.  A catalog fetched and saved on one page is there for the next
    page of the session: a fresh instance that loads within the cache
    duration of the save gets the same products and asks nothing from the
    network. *)
Theorem catalog_survives_page_change (env env' : Env) (w : World)
    (raw : list RawProduct) :
  loaded (catalog w) = false →
  loading (catalog w) = false →
  (loadFromCache (clockAtLoad env) w).1 = None →
  sessionWritable w = true →
  catalogResponse env = Responded true (Some raw) →
  (clockAtLoad env' ≤ clockAtSave env + CONFIG.CACHE_DURATION)%Z →
  ∃ w1,
    load env w = Returns (toProduct <$> raw, w1)
    ∧ session w1 = Snapshot (clockAtSave env) (toProduct <$> raw)
    ∧ load env' (setCatalog newCatalog w1)
      = Returns (toProduct <$> raw,
                 setCatalog (mkCatalog (toProduct <$> raw) false true) w1).
Proof.
  intros Hloaded Hloading Hmiss Hwritable Hresp Hclock.
  assert (Hwritable' : sessionWritable (loadFromCache (clockAtLoad env) w).2 = true).
  { unfold loadFromCache. destruct (session w) as [| |T cached]; try assumption.
    destruct (CONFIG.CACHE_DURATION <? clockAtLoad env - T)%Z; assumption. }
  unfold load at 1. unfold load_enter.
  rewrite Hloaded, Hloading, loadFromCache_setCatalog, Hmiss, Hresp.
  cbn [fst snd]. unfold load_resume, saveToCache.
  cbn [fetchBody try_catch mbind completion_bind catalog setCatalog issue
       sessionWritable session].
  rewrite Hwritable'. eexists. split; [reflexivity|]. split; [reflexivity|].
  unfold load, load_enter. cbn [catalog setCatalog loaded loading newCatalog products].
  rewrite loadFromCache_setCatalog.
  erewrite loadFromCache_fresh; [reflexivity | reflexivity | exact Hclock].
Qed.

Lemma catalog_survives_page_change_witness :
  ∃ w1,
    load (answering 0) (arriving Unparsable)
    = Returns (toProduct <$> [card "frog-two" []], w1)
    ∧ session w1 = Snapshot 50 (toProduct <$> [card "frog-two" []])
    ∧ load (answering 1800050) (setCatalog newCatalog w1)
      = Returns (toProduct <$> [card "frog-two" []],
                 setCatalog
                   (mkCatalog (toProduct <$> [card "frog-two" []]) false true) w1).
Proof.
  refine (catalog_survives_page_change (answering 0) (answering 1800050)
            (arriving Unparsable) [card "frog-two" []]
            eq_refl eq_refl eq_refl eq_refl eq_refl _).
  vm_compute. discriminate.
Defined.

(** X16.  A call of [load()] that returns leaves the instance in one of
    two states: loaded with exactly the products it returned, and then
    every later call returns the same products and changes nothing; or,
    after a failed fetch, neither loaded nor loading with the empty list
    returned. *)
Theorem load_leaves_ready_or_empty (env : Env) (w : World)
    (loadedProducts : list Product) (w1 : World) :
  load env w = Returns (loadedProducts, w1) →
  (loaded (catalog w1) = true
   ∧ products (catalog w1) = loadedProducts
   ∧ ∀ env', load env' w1 = Returns (loadedProducts, w1))
  ∨ (loadedProducts = []
     ∧ fetchFails (catalogResponse env) = true
     ∧ loaded (catalog w1) = false
     ∧ loading (catalog w1) = false).
Proof.
  intros [[Hloaded Hps] | Hfailed]%load_catalog_after; [left | right; exact Hfailed].
  split; [exact Hloaded|]. split; [exact Hps|].
  intros env'. unfold load, load_enter. rewrite Hloaded, Hps. reflexivity.
Qed.

Lemma load_leaves_ready_or_empty_witness :
  (loaded (catalog (holding [frogOne] frogSnapshot)) = true
   ∧ products (catalog (holding [frogOne] frogSnapshot)) = [frogOne]
   ∧ ∀ env', load env' (holding [frogOne] frogSnapshot)
             = Returns ([frogOne], holding [frogOne] frogSnapshot))
  ∨ ([frogOne] = []
     ∧ fetchFails (catalogResponse (answering 1801000)) = true
     ∧ loaded (catalog (holding [frogOne] frogSnapshot)) = false
     ∧ loading (catalog (holding [frogOne] frogSnapshot)) = false).
Proof.
  exact (load_leaves_ready_or_empty (answering 1801000) (arriving frogSnapshot)
           [frogOne] (holding [frogOne] frogSnapshot) eq_refl).
Defined.


(** ** Every run of a page *)

Section Runs.
Implicit Types (pg : Page) (e : Event) (ps : list Product).

Lemma inFlight_snoc w promised p :
  inFlight (mkPage w (promised ++ [p]))
  = (inFlight (mkPage w promised) + (if isOnFetch p then 1 else 0))%nat.
Proof.
  unfold inFlight. cbn [promises]. rewrite List.filter_app, length_app.
  cbn [List.filter]. destruct (isOnFetch p); reflexivity.
Qed.

Lemma inFlight_settle w promised caller p ps :
  promised !! caller = Some p →
  inFlight (mkPage w (<[caller := Settled ps]> promised))
  = (inFlight (mkPage w promised) - (if isOnFetch p then 1 else 0))%nat.
Proof.
  intros Hp. unfold inFlight. cbn [promises].
  rewrite insert_take_drop by (eapply lookup_lt_Some; eassumption).
  rewrite <- (take_drop_middle promised caller p Hp) at 3.
  rewrite !List.filter_app, !length_app. cbn [List.filter isOnFetch].
  destruct (isOnFetch p); cbn [length]; lia.
Qed.

Lemma inFlight_positive w promised caller :
  promised !! caller = Some OnFetch → (0 < inFlight (mkPage w promised))%nat.
Proof.
  intros Hp. unfold inFlight. cbn [promises].
  rewrite <- (take_drop_middle promised caller OnFetch Hp).
  rewrite List.filter_app, length_app. cbn. lia.
Qed.

(** Either one fetch is in flight and the instance is loading, or none is
    and it is not. *)
Lemma one_fetch_step pg e :
  (inFlight pg = 1%nat ∧ loading (catalog (world pg)) = true
   ∧ loaded (catalog (world pg)) = false
   ∨ inFlight pg = 0%nat ∧ loading (catalog (world pg)) = false) →
  inFlight (pageStep pg e) = 1%nat
  ∧ loading (catalog (world (pageStep pg e))) = true
  ∧ loaded (catalog (world (pageStep pg e))) = false
  ∨ inFlight (pageStep pg e) = 0%nat
    ∧ loading (catalog (world (pageStep pg e))) = false.
Proof.
  intros Hpg. destruct pg as [w promised]. cbn [world] in Hpg.
  destruct e as [now | caller o now | caller]; cbn [pageStep world promises].
  - unfold load_enter.
    destruct (loaded (catalog w)) eqn:Hloaded.
    { rewrite inFlight_snoc. cbn [isOnFetch world]. rewrite Nat.add_0_r.
      destruct Hpg as [(_ & _ & ?) | ?]; [congruence | by right]. }
    destruct (loading (catalog w)) eqn:Hloading.
    { rewrite inFlight_snoc. cbn [isOnFetch world]. rewrite Nat.add_0_r, Hloading.
      destruct Hpg as [(? & _ & ?) | [_ ?]]; [left; auto | congruence]. }
    destruct Hpg as [(_ & ? & _) | [Hnone _]]; [congruence|].
    rewrite loadFromCache_setCatalog.
    destruct (loadFromCache now w) as [[cached|] w0]; cbn [fst snd];
      rewrite inFlight_snoc; cbn [isOnFetch world catalog setCatalog issue
                                   loading loaded];
      unfold inFlight in *; cbn [promises] in *; rewrite Hnone.
    + right. split; reflexivity.
    + left. repeat split; reflexivity.
  - destruct (promised !! caller) as [[| |]|] eqn:Hp; try exact Hpg.
    destruct (load_resume o now w) as [[ps w']|e|] eqn:Hres; try exact Hpg.
    cbn [world]. right.
    rewrite (inFlight_settle _ _ _ _ _ Hp). cbn [isOnFetch].
    pose proof (inFlight_positive w promised caller Hp) as Hpos.
    split.
    + destruct Hpg as [(Hone & _) | (Hnone & _)]; unfold inFlight in *;
        cbn [promises] in *; lia.
    + unfold load_resume in Hres.
      destruct (fetchBody _ o); cbn in Hres; try discriminate;
        injection Hres as <- <-; reflexivity.
  - destruct (promised !! caller) as [[| |]|] eqn:Hp; try exact Hpg.
    destruct (load_poll w) as [ps|]; [|exact Hpg].
    cbn [world]. rewrite (inFlight_settle _ _ _ _ _ Hp). cbn [isOnFetch].
    rewrite Nat.sub_0_r. exact Hpg.
Qed.

Lemma settled_stays pg e caller ps :
  promises pg !! caller = Some (Settled ps) →
  promises (pageStep pg e) !! caller = Some (Settled ps).
Proof.
  intros Hp. destruct e as [now | caller' o now | caller']; cbn [pageStep].
  - destruct (load_enter now (world pg)) as [[ps'| |] w']; cbn [promises];
      by apply lookup_app_l_Some.
  - destruct (promises pg !! caller') as [[| |]|] eqn:Hp'; try exact Hp.
    destruct (load_resume o now (world pg)) as [[ps' w']|e|]; try exact Hp.
    cbn [promises]. rewrite list_lookup_insert_ne; [exact Hp | congruence].
  - destruct (promises pg !! caller') as [[| |]|] eqn:Hp'; try exact Hp.
    destruct (load_poll (world pg)) as [ps'|]; [|exact Hp].
    cbn [promises]. rewrite list_lookup_insert_ne; [exact Hp | congruence].
Qed.
End Runs.

(** X17.  Whatever calls, fetch results and interval callbacks a page
    sees, in whatever order, at most one catalog fetch is in flight at any
    time, and one is in flight exactly while the instance is loading. *)
Theorem at_most_one_fetch_in_flight (entry : SessionEntry) (writable : bool)
    (events : list Event) :
  let pg := runPage (freshPage entry writable) events in
  (inFlight pg ≤ 1)%nat
  ∧ (inFlight pg = 1%nat ↔ loading (catalog (world pg)) = true)
  ∧ (loading (catalog (world pg)) = true → loaded (catalog (world pg)) = false).
Proof.
  cbv zeta.
  assert (Hinv : ∀ pg,
    (inFlight pg = 1%nat ∧ loading (catalog (world pg)) = true
     ∧ loaded (catalog (world pg)) = false
     ∨ inFlight pg = 0%nat ∧ loading (catalog (world pg)) = false) →
    inFlight (runPage pg events) = 1%nat
    ∧ loading (catalog (world (runPage pg events))) = true
    ∧ loaded (catalog (world (runPage pg events))) = false
    ∨ inFlight (runPage pg events) = 0%nat
      ∧ loading (catalog (world (runPage pg events))) = false).
  { induction events as [|e events IH]; intros pg Hpg; [exact Hpg|].
    cbn [runPage foldl]. apply IH, one_fetch_step, Hpg. }
  destruct (Hinv (freshPage entry writable)) as [(H1 & H2 & H3) | (H1 & H2)];
    [right; split; reflexivity | |].
  - rewrite H1, H2, H3. repeat split; auto.
  - rewrite H1, H2. repeat split; try discriminate. lia.
Qed.

(** X18.  A settled promise never changes, whatever happens next; and a
    waiting caller settles only on an interval that finds the instance
    loaded, with the products the instance then holds. *)
Theorem promises_settle_once (pg : Page) (caller : nat) :
  (∀ ps events,
     promises pg !! caller = Some (Settled ps) →
     promises (runPage pg events) !! caller = Some (Settled ps))
  ∧ (∀ e ps,
       promises pg !! caller = Some OnInterval →
       promises (pageStep pg e) !! caller = Some (Settled ps) →
       e = IntervalFires caller
       ∧ loaded (catalog (world pg)) = true
       ∧ ps = products (catalog (world pg))).
Proof.
  split.
  - intros ps events. revert pg.
    induction events as [|e events IH]; intros pg Hp; [exact Hp|].
    cbn [runPage foldl]. apply IH, settled_stays, Hp.
  - intros e ps Hwait.
    destruct e as [now | caller' o now | caller']; cbn [pageStep].
    + destruct (load_enter now (world pg)) as [[ps'| |] w']; cbn [promises];
        rewrite (lookup_app_l_Some _ _ _ _ Hwait); discriminate.
    + destruct (promises pg !! caller') as [[| |]|] eqn:Hp';
        try (rewrite Hwait; discriminate).
      destruct (load_resume o now (world pg)) as [[ps' w']|e|];
        try (rewrite Hwait; discriminate).
      cbn [promises]. rewrite list_lookup_insert_ne by congruence.
      rewrite Hwait. discriminate.
    + destruct (promises pg !! caller') as [[| |]|] eqn:Hp';
        try (rewrite Hwait; discriminate).
      unfold load_poll.
      destruct (loaded (catalog (world pg))) eqn:Hloaded;
        [|rewrite Hwait; discriminate].
      cbn [promises]. destruct (decide (caller' = caller)) as [->|Hne].
      * rewrite list_lookup_insert_eq by (eapply lookup_lt_Some; eassumption).
        intros [= <-]. repeat split.
      * rewrite list_lookup_insert_ne by assumption. rewrite Hwait. discriminate.
Qed.


(** ** Tags *)

Section Tags.
Implicit Types (c sep : ascii) (cs : list ascii) (t tag : string)
  (parsed p q : ParsedTags).

Lemma lowerChar_idempotent c : lowerChar (lowerChar c) = lowerChar c.
Proof. destruct c as [[] [] [] [] [] [] [] []]; reflexivity. Qed.

Lemma plainChar_spec c :
  plainChar c = true → lowerChar c = c ∧ isWhite c = false ∧ c ≠ ":"%char.
Proof.
  destruct c as [[] [] [] [] [] [] [] []]; vm_compute; intros H;
    try discriminate H; repeat split; discriminate.
Qed.

Lemma toLowerCase_chars t :
  list_ascii_of_string (toLowerCase t) = lowerChar <$> list_ascii_of_string t.
Proof. induction t as [|c t IH]; [reflexivity|]. cbn. rewrite IH. reflexivity. Qed.

Lemma toLowerCase_idempotent t : toLowerCase (toLowerCase t) = toLowerCase t.
Proof.
  induction t as [|c t IH]; [reflexivity|].
  cbn. rewrite lowerChar_idempotent, IH. reflexivity.
Qed.

Lemma toLowerCase_fixed t :
  Forall (λ c, lowerChar c = c) (list_ascii_of_string t) → toLowerCase t = t.
Proof.
  induction t as [|c t IH]; [reflexivity|].
  cbn. intros [Hc Ht]%Forall_cons. rewrite Hc, IH by assumption. reflexivity.
Qed.

Lemma trimStart_suffix cs : trimStart cs `suffix_of` cs.
Proof.
  induction cs as [|c cs IH]; [reflexivity|]. cbn.
  destruct (isWhite c); [by apply suffix_cons_r | reflexivity].
Qed.

Lemma trimStart_fixed cs :
  Forall (λ c, isWhite c = false) cs → trimStart cs = cs.
Proof. destruct cs as [|c cs]; [reflexivity|]. cbn. intros [-> _]%Forall_cons. reflexivity. Qed.

Lemma elem_of_rev c cs : c ∈ rev cs ↔ c ∈ cs.
Proof. rewrite !list_elem_of_In. symmetry. apply in_rev. Qed.

Lemma trim_chars t c :
  c ∈ list_ascii_of_string (trim t) → c ∈ list_ascii_of_string t.
Proof.
  unfold trim. rewrite list_ascii_of_string_of_list_ascii, elem_of_rev.
  intros Hc.
  apply (λ H, elem_of_suffix _ _ _ H (trimStart_suffix _)) in Hc.
  apply (proj1 (elem_of_rev _ _)) in Hc.
  exact (elem_of_suffix _ _ _ Hc (trimStart_suffix _)).
Qed.

Lemma trim_fixed t :
  Forall (λ c, isWhite c = false) (list_ascii_of_string t) → trim t = t.
Proof.
  intros Ht. unfold trim. rewrite (trimStart_fixed _ Ht).
  rewrite trimStart_fixed.
  - rewrite rev_involutive. apply string_of_list_ascii_of_string.
  - rewrite Forall_forall in Ht |- *. intros c Hc.
    apply Ht, (proj1 (elem_of_rev _ _)), Hc.
Qed.

(** No part of a split contains the separator, and every character of a
    part is a character of the text. *)
Lemma split_parts sep t part c :
  part ∈ split sep t → c ∈ list_ascii_of_string part →
  c ≠ sep ∧ c ∈ list_ascii_of_string t.
Proof.
  revert part. induction t as [|c' t IH]; intros part; cbn [split].
  - intros ->%list_elem_of_singleton Hc. inversion Hc.
  - destruct (Ascii.eqb_spec c' sep) as [->|Hne].
    + intros [->|Hpart]%elem_of_cons Hc; [inversion Hc|].
      destruct (IH _ Hpart Hc). split; [assumption|]. cbn. by right.
    + destruct (split sep t) as [|first rest] eqn:Hsplit.
      * intros ->%list_elem_of_singleton [->|Hc]%elem_of_cons;
          [split; [assumption | left] | inversion Hc].
      * intros [->|Hpart]%elem_of_cons Hc.
        -- cbn in Hc. apply elem_of_cons in Hc as [->|Hc];
             [split; [assumption | left]|].
           destruct (IH first (list_elem_of_here _ _) Hc).
           split; [assumption|]. cbn. by right.
        -- destruct (IH part (list_elem_of_further _ _ _ Hpart) Hc).
           split; [assumption|]. cbn. by right.
Qed.

Lemma split_without_separator sep t :
  Forall (λ c, c ≠ sep) (list_ascii_of_string t) → split sep t = [t].
Proof.
  induction t as [|c t IH]; [reflexivity|].
  cbn. intros [Hc Ht]%Forall_cons.
  destruct (Ascii.eqb_spec c sep); [congruence|]. rewrite IH by assumption.
  reflexivity.
Qed.

Lemma split_at_separator sep t t' :
  Forall (λ c, c ≠ sep) (list_ascii_of_string t) →
  split sep (t ++ String sep t')%string = t :: split sep t'.
Proof.
  induction t as [|c t IH].
  - intros _. change (split sep (String sep t') = EmptyString :: split sep t').
    cbn [split]. destruct (Ascii.eqb_spec sep sep); [reflexivity | congruence].
  - intros [Hc Ht]%Forall_cons.
    change (split sep (String c (t ++ String sep t')%string)
            = String c t :: split sep t').
    cbn [split].
    destruct (Ascii.eqb_spec c sep); [congruence|]. rewrite IH by assumption.
    reflexivity.
Qed.

Lemma append_chars t t' :
  list_ascii_of_string (t ++ t')%string
  = list_ascii_of_string t ++ list_ascii_of_string t'.
Proof.
  induction t as [|c t IH]; [reflexivity|].
  change (c :: list_ascii_of_string (t ++ t')%string
          = c :: (list_ascii_of_string t ++ list_ascii_of_string t')).
  rewrite IH. reflexivity.
Qed.

Lemma plain_chars t :
  plain t = true → Forall (λ c, plainChar c = true) (list_ascii_of_string t).
Proof.
  unfold plain. rewrite forallb_forall, Forall_forall.
  intros H c Hc. apply H. by apply list_elem_of_In.
Qed.

Lemma mergeParsed_empty_r p : mergeParsed p emptyParsed = p.
Proof. destruct p. unfold mergeParsed. cbn. rewrite !app_nil_r. reflexivity. Qed.

Lemma mergeParsed_assoc p q r :
  mergeParsed (mergeParsed p q) r = mergeParsed p (mergeParsed q r).
Proof. unfold mergeParsed. cbn. rewrite <- !app_assoc. reflexivity. Qed.

Lemma pushTag_merge p category value :
  pushTag p category value = mergeParsed p (pushTag emptyParsed category value).
Proof.
  destruct p as [i o r s h]. unfold pushTag, emptyParsed, mergeParsed.
  destruct (category =? "interest"); [cbn; by rewrite !app_nil_r|].
  destruct (category =? "occasion"); [cbn; by rewrite !app_nil_r|].
  destruct (category =? "recipient"); [cbn; by rewrite !app_nil_r|].
  destruct (category =? "style"); [cbn; by rewrite !app_nil_r|].
  destruct (category =? "humour"); cbn; by rewrite !app_nil_r.
Qed.

Lemma parseTag_merge p tag :
  parseTag p tag = mergeParsed p (parseTag emptyParsed tag).
Proof.
  unfold parseTag.
  destruct (split ":" (trim (toLowerCase tag))) as [|category [|value [|? ?]]];
    try (symmetry; apply mergeParsed_empty_r).
  apply pushTag_merge.
Qed.

Lemma parseTags_from p (tags : list string) :
  foldl parseTag p tags = mergeParsed p (foldl parseTag emptyParsed tags).
Proof.
  revert p. induction tags as [|tag tags IH]; intros p; cbn [foldl].
  - symmetry. apply mergeParsed_empty_r.
  - rewrite IH, (IH (parseTag emptyParsed tag)), (parseTag_merge p tag).
    apply mergeParsed_assoc.
Qed.

(** What one tag adds: nothing, or the value of a tag that splits into a
    known category and that value. *)
Lemma parseTag_values tag :
  valuesOf (parseTag emptyParsed tag) = []
  ∨ ∃ category value,
      split ":" (trim (toLowerCase tag)) = [category; value]
      ∧ category ∈ categories
      ∧ valuesOf (parseTag emptyParsed tag) = [value].
Proof.
  unfold parseTag, categories.
  destruct (split ":" (trim (toLowerCase tag))) as [|category [|value [|? ?]]];
    try (left; reflexivity).
  unfold pushTag, emptyParsed.
  destruct (String.eqb_spec category "interest") as [->|_];
    [right; do 2 eexists; repeat split; set_solver|].
  destruct (String.eqb_spec category "occasion") as [->|_];
    [right; do 2 eexists; repeat split; set_solver|].
  destruct (String.eqb_spec category "recipient") as [->|_];
    [right; do 2 eexists; repeat split; set_solver|].
  destruct (String.eqb_spec category "style") as [->|_];
    [right; do 2 eexists; repeat split; set_solver|].
  destruct (String.eqb_spec category "humour") as [->|_];
    [right; do 2 eexists; repeat split; set_solver | left; reflexivity].
Qed.

Lemma valuesOf_merge p q v :
  v ∈ valuesOf (mergeParsed p q) ↔ v ∈ valuesOf p ∨ v ∈ valuesOf q.
Proof.
  unfold valuesOf, mergeParsed. cbn. rewrite !elem_of_app. tauto.
Qed.

Lemma valuesOf_merge_length p q :
  length (valuesOf (mergeParsed p q))
  = (length (valuesOf p) + length (valuesOf q))%nat.
Proof. unfold valuesOf, mergeParsed. cbn. rewrite !length_app. lia. Qed.
(** A tag of plain text around one colon reaches [pushTag] unchanged. *)
Lemma parseTag_plain p category value :
  plain category = true → plain value = true →
  parseTag p (category ++ ":" ++ value)%string = pushTag p category value.
Proof.
  intros Hcat%plain_chars Hval%plain_chars.
  change (category ++ ":" ++ value)%string
    with (category ++ String ":" value)%string.
  assert (Hchars : Forall (λ c, plainChar c = true ∨ c = ":"%char)
                     (list_ascii_of_string (category ++ String ":" value)%string)).
  { rewrite append_chars. apply Forall_app. split.
    - eapply Forall_impl; [exact Hcat|]. auto.
    - cbn. constructor; [by right|]. eapply Forall_impl; [exact Hval|]. auto. }
  unfold parseTag. rewrite toLowerCase_fixed, trim_fixed.
  - rewrite split_at_separator, split_without_separator; [reflexivity| |].
    + eapply Forall_impl; [exact Hval|]. intros c Hc. by apply plainChar_spec.
    + eapply Forall_impl; [exact Hcat|]. intros c Hc. by apply plainChar_spec.
  - eapply Forall_impl; [exact Hchars|].
    intros c [Hc%plainChar_spec | ->]; [tauto | reflexivity].
  - eapply Forall_impl; [exact Hchars|].
    intros c [Hc%plainChar_spec | ->]; [tauto | reflexivity].
Qed.

Lemma parseTags_snoc (tags : list string) tag :
  parseTags (Some (tags ++ [tag])) = parseTag (parseTags (Some tags)) tag.
Proof. cbn [parseTags]. rewrite foldl_app. reflexivity. Qed.

Lemma parsed_value_source (tags : list string) v :
  v ∈ valuesOf (foldl parseTag emptyParsed tags) →
  ∃ tag category,
    tag ∈ tags ∧ category ∈ categories
    ∧ split ":" (trim (toLowerCase tag)) = [category; v].
Proof.
  induction tags as [|tag tags IH]; cbn [foldl].
  - intros Hv. inversion Hv.
  - rewrite parseTags_from. intros [Hv|Hv]%valuesOf_merge.
    + destruct (parseTag_values tag) as [Hnone | (category & value & Hsplit & Hcat & Hone)].
      * rewrite Hnone in Hv. inversion Hv.
      * rewrite Hone in Hv. apply list_elem_of_singleton in Hv as ->.
        exists tag, category. split; [left | split; assumption].
    + destruct (IH Hv) as (tag' & category & Htag & Hrest).
      exists tag', category. split; [by right | exact Hrest].
Qed.

End Tags.

Lemma findByHandle_cons (p : Product) (ps : list Product) (h : string) :
  findByHandle (p :: ps) h = if handle p =? h then Some p else findByHandle ps h.
Proof. reflexivity. Qed.

(** X19.  Parsing tags one list after another gives, category by
    category, the values of the first list followed by those of the
    second; and no list of tags gives more values than it has tags. *)
Theorem parseTags_over_concatenation (tags1 tags2 : list string) :
  parseTags (Some (tags1 ++ tags2))
  = mergeParsed (parseTags (Some tags1)) (parseTags (Some tags2))
  ∧ (length (valuesOf (parseTags (Some tags1))) ≤ length tags1)%nat.
Proof.
  split.
  - cbn [parseTags]. rewrite foldl_app. apply parseTags_from.
  - cbn [parseTags]. induction tags1 as [|tag tags IH]; [cbn; lia|].
    cbn [foldl length]. rewrite parseTags_from, valuesOf_merge_length.
    destruct (parseTag_values tag) as [-> | (? & ? & _ & _ & ->)]; cbn [length]; lia.
Qed.

(** X20.  Every parsed value comes from a tag that, lower-cased and
    trimmed, reads category:value with one of the five categories; the
    value holds no colon and no upper-case letter. *)
Theorem parsed_values_come_from_tags (tags : option (list string)) (v : string) :
  v ∈ valuesOf (parseTags tags) →
  (∃ given tag category,
     tags = Some given ∧ tag ∈ given ∧ category ∈ categories
     ∧ split ":" (trim (toLowerCase tag)) = [category; v])
  ∧ ∀ c, c ∈ list_ascii_of_string v → c ≠ ":"%char ∧ lowerChar c = c.
Proof.
  destruct tags as [given|]; [|intros Hv; inversion Hv].
  cbn [parseTags]. intros (tag & category & Htag & Hcat & Hsplit)%parsed_value_source.
  split; [by exists given, tag, category|].
  intros c Hc.
  assert (Hpart : v ∈ split ":" (trim (toLowerCase tag)))
    by (rewrite Hsplit; set_solver).
  destruct (split_parts _ _ _ _ Hpart Hc) as [Hne Hin].
  split; [exact Hne|].
  apply trim_chars in Hin. rewrite toLowerCase_chars in Hin.
  apply list_elem_of_fmap in Hin as (c' & -> & _). apply lowerChar_idempotent.
Qed.

Lemma parsed_values_come_from_tags_witness :
  (∃ given tag category,
     Some [" Interest:Frogs "; "colour:red"] = Some given ∧ tag ∈ given
     ∧ category ∈ categories
     ∧ split ":" (trim (toLowerCase tag)) = [category; "frogs"])
  ∧ ∀ c, c ∈ list_ascii_of_string "frogs" → c ≠ ":"%char ∧ lowerChar c = c.
Proof.
  apply (parsed_values_come_from_tags (Some [" Interest:Frogs "; "colour:red"])).
  vm_compute. left.
Defined.

(** X21.  A tag written as the tagging guide asks, a known category, a
    colon and a value of lower-case letters, digits and hyphens, adds its
    value at the end of the list of its own category, after whatever tags
    came before, and leaves the lists of the four other categories as they
    were. *)
Theorem well_formed_tag_is_kept (tags : list string) (category value : string) :
  category ∈ categories →
  plain value = true →
  let before := parseTags (Some tags) in
  let after := parseTags (Some (tags ++ [(category ++ ":" ++ value)%string])) in
  let added (name : string) : list string :=
    if decide (category = name) then [value] else [] in
  interest after = interest before ++ added "interest"
  ∧ occasion after = occasion before ++ added "occasion"
  ∧ recipient after = recipient before ++ added "recipient"
  ∧ style after = style before ++ added "style"
  ∧ humour after = humour before ++ added "humour".
Proof.
  intros Hcat Hvalue before after added.
  assert (Hplain : plain category = true).
  { unfold categories in Hcat.
    repeat (apply elem_of_cons in Hcat as [->|Hcat]; [reflexivity|]).
    inversion Hcat. }
  subst after. rewrite parseTags_snoc, (parseTag_plain _ _ _ Hplain Hvalue).
  fold before. subst added. destruct before as [i o r s h].
  unfold categories in Hcat.
  repeat (apply elem_of_cons in Hcat as [->|Hcat];
          [cbn; rewrite ?app_nil_r; repeat split; reflexivity|]).
  inversion Hcat.
Qed.

Lemma well_formed_tag_is_kept_witness :
  let after := parseTags (Some (["style:cute"; "interest:dogs"]
                                ++ [("interest" ++ ":" ++ "tree-frogs")%string])) in
  interest after = ["dogs"] ++ ["tree-frogs"]
  ∧ occasion after = [] ++ []
  ∧ recipient after = [] ++ []
  ∧ style after = ["cute"] ++ []
  ∧ humour after = [] ++ [].
Proof.
  refine (well_formed_tag_is_kept ["style:cute"; "interest:dogs"]
            "interest" "tree-frogs" _ eq_refl).
  apply list_elem_of_In. vm_compute. auto.
Defined.

(** X22.  A tag with a category other than the five known ones adds
    nothing. *)
Theorem unknown_category_is_dropped (tags : list string) (category value : string) :
  category ∉ categories →
  plain category = true →
  plain value = true →
  parseTags (Some (tags ++ [(category ++ ":" ++ value)%string]))
  = parseTags (Some tags).
Proof.
  intros Hcat Hplain Hvalue.
  rewrite parseTags_snoc, (parseTag_plain _ _ _ Hplain Hvalue).
  unfold categories in Hcat. unfold pushTag.
  destruct (parseTags (Some tags)) as [i o r s h].
  destruct (String.eqb_spec category "interest") as [->|_]; [set_solver|].
  destruct (String.eqb_spec category "occasion") as [->|_]; [set_solver|].
  destruct (String.eqb_spec category "recipient") as [->|_]; [set_solver|].
  destruct (String.eqb_spec category "style") as [->|_]; [set_solver|].
  destruct (String.eqb_spec category "humour") as [->|_]; [set_solver|].
  reflexivity.
Qed.

Lemma unknown_category_is_dropped_witness :
  parseTags (Some (["style:cute"] ++ [("colour" ++ ":" ++ "red")%string]))
  = parseTags (Some ["style:cute"]).
Proof.
  apply unknown_category_is_dropped; [|reflexivity|reflexivity].
  rewrite list_elem_of_In. vm_compute. intuition discriminate.
Defined.

(** X23.  The letter case of a tag does not matter: lower-casing every
    tag first gives the same parsed tags. *)
Theorem parseTags_ignores_case (tags : list string) :
  parseTags (Some (toLowerCase <$> tags)) = parseTags (Some tags).
Proof.
  cbn [parseTags]. generalize emptyParsed.
  induction tags as [|tag tags IH]; intros p; [reflexivity|].
  cbn [fmap list_fmap foldl]. rewrite <- IH. f_equal.
  unfold parseTag. rewrite toLowerCase_idempotent. reflexivity.
Qed.

(** X24.  [findByHandle] finds nothing exactly when no catalog item has
    the handle, and otherwise returns the first item that has it. *)
Theorem findByHandle_first_match (ps : list Product) (h : string) :
  (findByHandle ps h = None ↔ h ∉ handle <$> ps)
  ∧ ∀ p, findByHandle ps h = Some p
         ↔ ∃ before after,
             ps = before ++ p :: after ∧ handle p = h
             ∧ h ∉ handle <$> before.
Proof.
  induction ps as [|q ps [IHnone IHsome]].
  - split; [split; [intros _ H; inversion H | reflexivity]|].
    intros p. split; [discriminate|].
    intros (before & after & Heq & _). by destruct before.
  - rewrite findByHandle_cons. destruct (String.eqb_spec (handle q) h) as [Hq|Hq].
    + split.
      * split; [discriminate|]. intros Hnot. exfalso. apply Hnot.
        rewrite fmap_cons, Hq. left.
      * intros p. split.
        -- intros [= <-]. exists [], ps. repeat split; [assumption|].
           intros H; inversion H.
        -- intros (before & after & Heq & Hp & Hnot).
           destruct before as [|q' before].
           ++ injection Heq as ->. reflexivity.
           ++ injection Heq as -> _. exfalso. apply Hnot.
              rewrite fmap_cons, Hq. left.
    + split.
      * rewrite IHnone, fmap_cons, not_elem_of_cons. split; [auto | tauto].
      * intros p. rewrite IHsome. split.
        -- intros (before & after & -> & Hp & Hnot).
           exists (q :: before), after. repeat split; [assumption|].
           rewrite fmap_cons, not_elem_of_cons. auto.
        -- intros (before & after & Heq & Hp & Hnot).
           destruct before as [|q' before].
           ++ injection Heq as ->. congruence.
           ++ injection Heq as -> ->. exists before, after.
              rewrite fmap_cons, not_elem_of_cons in Hnot. tauto.
Qed.
